(** * LF record engine: a shallow embedding of the Go/C sources

    The development follows the repository file by file:
    - [ISet]           : iset.h, the bucketed set of 64-bit offsets used by
                         the graph traversal;
    - [NodeAPI]        : pkg/lf/node.go, the part of [Node] that touches the
                         database;
    - [Genesis]        : genesis.go, [GenesisParameters.Update];
    - [Hashes]         : SHA-256, SHA-512 and SHA3-512 as the Go libraries
                         compute them, and the Shandwich256 composite pinned
                         by the vector of [TestCore];
    - [Wire]           : readers and writers of the record format, with
                         encoding/binary's uvarint;
    - [Records]        : the record, its canonical serialization and hash,
                         value masking;
    - [Selectors]      : selector claims and selector keys;
    - [GenesisRecords] : genesis.go, [CreateGenesisRecords];
    - [ISetLaws]       : iset.h, the set over any run of puts;
    - [NodeHosts]      : pkg/lf/node.go, the table of peers: [GetHost], [Try]
                         and the cleanup thread of [NewNode];
    - [GenesisLaws]    : genesis.go, [Update] over a run of documents;
    - [GenesisBootstrap] : genesis.go, from the genesis records back to the
                         parameters;
    - [TestDatabase]   : the record generator and the insertion order of
                         [TestDatabase].

    Conventions.  A byte is a [Z] (a value in [0, 256) when well formed), a
    byte slice a [list Z]; a Go [uint64] is a [Z] reduced modulo [2^64] where
    the code computes with it; a Go [error] is a string, [nil] being [None]
    or the right injection of a sum. *)

From Stdlib Require Import ZArith List Lia Bool String Ascii.
From stdpp Require Import gmap strings list sorting.

Local Open Scope Z_scope.

Abbreviation bytes := (list Z) (only parsing).

(** Go's [(T, error)] results. *)
Definition error : Type := string.
Definition result (A : Type) : Type := error + A.

Definition uint64 (x : Z) : Z := x mod 2 ^ 64.

(* ===================================================================== *)
(** * iset.h *)
(* ===================================================================== *)

Module ISet.

Definition ZTLF_ISET_BUCKET_COUNT : Z := 8388608.

(** [struct ZTLF_Vector_i64] (vector.h): a growable array of [int64_t];
    only its contents matter here, so it is a list, and
    [ZTLF_Vector_i64_append] is [v ++ [i]]. *)
Abbreviation ZTLF_Vector_i64 := (list Z) (only parsing).

(** [struct ZTLF_ISet { struct ZTLF_Vector_i64 buckets[COUNT]; }]: the array
    is a finite map from bucket index to vector, an absent index standing
    for the zeroed (empty) vector that [ZTLF_ISet_new] leaves there. *)
Abbreviation ZTLF_ISet := (gmap Z (list Z)) (only parsing).

Definition ZTLF_ISet_new : ZTLF_ISet := ∅.

Definition bucket (s : ZTLF_ISet) (k : Z) : ZTLF_Vector_i64 :=
  default [] (s !! k).

(** The loop [for (k = 0; k < v->size; k++) if (v->v[k] == i) return ...]. *)
Fixpoint vector_scan (v : ZTLF_Vector_i64) (i : Z) : bool :=
  match v with
  | [] => false
  | x :: v' => if x =? i then true else vector_scan v' i
  end.

Section WithHash.

(** [ZTLF_xorshift64starOnce] lives in common.h; the set only needs it to be
    a function from [uint64_t] to [uint64_t]. *)
Variable ZTLF_xorshift64starOnce : Z → Z.

(** [(unsigned long)ZTLF_xorshift64starOnce((uint64_t)i) % ZTLF_ISET_BUCKET_COUNT] *)
Definition bucket_index (i : Z) : Z :=
  uint64 (ZTLF_xorshift64starOnce (uint64 i)) mod ZTLF_ISET_BUCKET_COUNT.

Definition ZTLF_ISet_put (s : ZTLF_ISet) (i : Z) : ZTLF_ISet * bool :=
  let k := bucket_index i in
  let v := bucket s k in
  if vector_scan v i then (s, false)
  else (<[k := v ++ [i]]> s, true).

Definition ZTLF_ISet_contains (s : ZTLF_ISet) (i : Z) : bool :=
  vector_scan (bucket s (bucket_index i)) i.

Lemma bucket_index_range i :
  0 ≤ bucket_index i < ZTLF_ISET_BUCKET_COUNT.
Proof. unfold bucket_index, ZTLF_ISET_BUCKET_COUNT. apply Z.mod_pos_bound. lia. Qed.

Lemma vector_scan_elem v i : vector_scan v i = true ↔ i ∈ v.
Proof.
  induction v as [|x v IH]; simpl.
  - split; [discriminate | intros H; inversion H].
  - destruct (Z.eqb_spec x i) as [->|Hne].
    + split; [intros _; left | reflexivity].
    + rewrite IH. split; [intros H; by right |].
      intros [->|H]%elem_of_cons; [contradiction | done].
Qed.

Lemma vector_scan_app v w i :
  vector_scan (v ++ w) i = vector_scan v i || vector_scan w i.
Proof.
  induction v as [|x v IH]; simpl; [done |].
  destruct (x =? i); [done | apply IH].
Qed.

Lemma bucket_insert_eq (s : gmap Z (list Z)) k v : bucket (<[k := v]> s) k = v.
Proof. unfold bucket. by rewrite lookup_insert_eq. Qed.

Lemma bucket_insert_ne (s : gmap Z (list Z)) k k' v :
  k ≠ k' → bucket (<[k := v]> s) k' = bucket s k'.
Proof. intros H. unfold bucket. by rewrite lookup_insert_ne. Qed.

Lemma contains_new i : ZTLF_ISet_contains ZTLF_ISet_new i = false.
Proof. reflexivity. Qed.

(** Membership after a put: the old members and [i], nothing else. *)
Lemma contains_put (s : gmap Z (list Z)) i j :
  ZTLF_ISet_contains (ZTLF_ISet_put s i).1 j
  = ZTLF_ISet_contains s j || bool_decide (j = i).
Proof.
  unfold ZTLF_ISet_put, ZTLF_ISet_contains.
  destruct (vector_scan (bucket s (bucket_index i)) i) eqn:Hi; simpl.
  - case_bool_decide as Hj; [subst j; by rewrite Hi | by rewrite orb_false_r].
  - destruct (decide (bucket_index i = bucket_index j)) as [Hk|Hk].
    + rewrite Hk, bucket_insert_eq, vector_scan_app. simpl.
      rewrite (Z.eqb_sym i j).
      destruct (Z.eqb_spec j i) as [->|Hne].
      * by rewrite bool_decide_eq_true_2.
      * by rewrite bool_decide_eq_false_2.
    + rewrite bucket_insert_ne by done.
      rewrite bool_decide_eq_false_2; [by rewrite orb_false_r |].
      intros ->. by apply Hk.
Qed.

(** C10.  [ZTLF_ISet_put s i] answers [true] exactly when [i] was not yet a
    member; afterwards [i] is a member; putting [i] again answers [false]
    and returns the very same set; and no other value's membership moves. *)
Theorem ZTLF_ISet_put_spec (s : gmap Z (list Z)) (i : Z) :
  (ZTLF_ISet_put s i).2 = negb (ZTLF_ISet_contains s i)
  ∧ ZTLF_ISet_contains (ZTLF_ISet_put s i).1 i = true
  ∧ ZTLF_ISet_put (ZTLF_ISet_put s i).1 i = ((ZTLF_ISet_put s i).1, false)
  ∧ (∀ j, j ≠ i →
       ZTLF_ISet_contains (ZTLF_ISet_put s i).1 j = ZTLF_ISet_contains s j).
Proof.
  assert (Hin : ZTLF_ISet_contains (ZTLF_ISet_put s i).1 i = true).
  { rewrite contains_put, bool_decide_eq_true_2 by done. apply orb_true_r. }
  repeat split.
  - unfold ZTLF_ISet_put, ZTLF_ISet_contains.
    by destruct (vector_scan (bucket s (bucket_index i)) i).
  - exact Hin.
  - unfold ZTLF_ISet_contains in Hin.
    unfold ZTLF_ISet_put at 1. by rewrite Hin.
  - intros j Hj. rewrite contains_put, bool_decide_eq_false_2 by done.
    apply orb_false_r.
Qed.

End WithHash.

(** Marsaglia's xorshift64-star generator, the usual function of that name;
    it is used only to run the set on concrete values. *)
Definition xorshift64star (x : Z) : Z :=
  let x := Z.lxor x (Z.shiftr x 12) in
  let x := uint64 (Z.lxor x (Z.shiftl x 25)) in
  let x := Z.lxor x (Z.shiftr x 27) in
  uint64 (x * 2685821657736338717).

Example put_twice :
  let s1 := (ZTLF_ISet_put xorshift64star ZTLF_ISet_new 42).1 in
  (ZTLF_ISet_put xorshift64star ZTLF_ISet_new 42).2 = true
  ∧ (ZTLF_ISet_put xorshift64star s1 42).2 = false
  ∧ ZTLF_ISet_contains xorshift64star s1 42 = true
  ∧ ZTLF_ISet_contains xorshift64star s1 (-7) = false.
Proof. vm_compute. done. Qed.

End ISet.

(* ===================================================================== *)
(** * pkg/lf/node.go *)
(* ===================================================================== *)

Module NodeAPI.

Section Node.

(** The sockets, the HTTP server, the wait group, the database and the peer
    records are opaque here: nothing below looks inside them. *)
Variables (UDPConn HTTPServer WaitGroup DB Host packedAddress : Type).

Record Node := {
  udpSocket : UDPConn;
  httpServer : HTTPServer;
  backgroundThreadWG : WaitGroup;
  db : DB;
  hosts : list Host;
  hostsByAddr : list (packedAddress * Host);
  startTime : Z;
  shutdown : Z
}.

(** [func (n *Node) AddRecord(recordData []byte) error { return nil }]:
    the receiver after the call, and the error ([None] is [nil]). *)
Definition AddRecord (n : Node) (recordData : bytes) : Node * option error :=
  (n, None).

(** Feeding a whole batch of records through [AddRecord], keeping the
    errors. *)
Definition AddRecords (n : Node) (batch : list bytes) : Node * list (option error) :=
  foldl (λ acc recordData,
           let r := AddRecord acc.1 recordData in (r.1, acc.2 ++ [r.2]))
        (n, []) batch.

Lemma AddRecords_node n batch : (AddRecords n batch).1 = n.
Proof.
  unfold AddRecords.
  change n with (n, @nil (option error)).1 at 2.
  generalize (n, @nil (option error)).
  induction batch as [|d batch IH]; intros acc; simpl; [done |].
  by rewrite IH.
Qed.

(** C9.  Whatever bytes it is given, [Node.AddRecord] returns [nil] and
    leaves the node, and so its database, exactly as it was; the same holds
    after any batch of calls. *)
Theorem AddRecord_returns_nil_and_ingests_nothing (n : Node) (recordData : bytes) :
  (AddRecord n recordData).2 = None
  ∧ (AddRecord n recordData).1 = n
  ∧ db (AddRecord n recordData).1 = db n
  ∧ ∀ batch, db (AddRecords n batch).1 = db n.
Proof.
  repeat split. intros batch. by rewrite AddRecords_node.
Qed.

End Node.

End NodeAPI.

(* ===================================================================== *)
(** * genesis.go: GenesisParameters *)
(* ===================================================================== *)

Module Genesis.

(** [type GenesisParameters struct]; a [Blob] is a byte slice, [LinkKey] a
    [[32]byte], [uint] and [uint64] are 64-bit. *)
Record GenesisParameters := {
  initialized : bool;
  Name : string;
  Contact : string;
  Comment : string;
  RootCertificateAuthorities : list (list Z);
  CertificateRequired : bool;
  WorkRequired : bool;
  LinkKey : list Z;
  TimestampFloor : Z;
  RecordMinLinks : Z;
  RecordMaxValueSize : Z;
  RecordMaxSize : Z;
  RecordMaxForwardTimeDrift : Z;
  AmendableFields : list string
}.

(** The fields [Update] dispatches on. *)
Inductive field :=
  | FName
  | FContact
  | FComment
  | FRootCertificateAuthorities
  | FCertificateRequired
  | FWorkRequired
  | FLinkKey
  | FTimestampFloor
  | FRecordMinLinks
  | FRecordMaxValueSize
  | FRecordMaxSize
  | FRecordMaxForwardTimeDrift
  | FAmendableFields.

#[export] Instance field_eq_dec : EqDecision field.
Proof. solve_decision. Defined.

Definition all_fields : list field :=
  [FName; FContact; FComment; FRootCertificateAuthorities; FCertificateRequired; FWorkRequired; FLinkKey; FTimestampFloor; FRecordMinLinks; FRecordMaxValueSize; FRecordMaxSize; FRecordMaxForwardTimeDrift; FAmendableFields].

(** What a field can hold. *)
Inductive value :=
  | VString (s : string)
  | VBlobs (l : list (list Z))
  | VBool (b : bool)
  | VBytes (l : list Z)
  | VUint (z : Z)
  | VStrings (l : list string).

Definition get (f : field) (gp : GenesisParameters) : value :=
  match f with
  | FName => VString (Name gp)
  | FContact => VString (Contact gp)
  | FComment => VString (Comment gp)
  | FRootCertificateAuthorities => VBlobs (RootCertificateAuthorities gp)
  | FCertificateRequired => VBool (CertificateRequired gp)
  | FWorkRequired => VBool (WorkRequired gp)
  | FLinkKey => VBytes (LinkKey gp)
  | FTimestampFloor => VUint (TimestampFloor gp)
  | FRecordMinLinks => VUint (RecordMinLinks gp)
  | FRecordMaxValueSize => VUint (RecordMaxValueSize gp)
  | FRecordMaxSize => VUint (RecordMaxSize gp)
  | FRecordMaxForwardTimeDrift => VUint (RecordMaxForwardTimeDrift gp)
  | FAmendableFields => VStrings (AmendableFields gp)
  end.

(** One case of the switch: [gp.F = ngp.F] for the selected field [f], every
    other field of [gp] as it was. *)
Definition pick {A} (f g : field) (proj : GenesisParameters → A)
    (ngp gp : GenesisParameters) : A :=
  if decide (f = g) then proj ngp else proj gp.

Definition assign (f : field) (ngp gp : GenesisParameters) : GenesisParameters :=
  {| initialized := initialized gp;
     Name := pick f FName Name ngp gp;
     Contact := pick f FContact Contact ngp gp;
     Comment := pick f FComment Comment ngp gp;
     RootCertificateAuthorities := pick f FRootCertificateAuthorities RootCertificateAuthorities ngp gp;
     CertificateRequired := pick f FCertificateRequired CertificateRequired ngp gp;
     WorkRequired := pick f FWorkRequired WorkRequired ngp gp;
     LinkKey := pick f FLinkKey LinkKey ngp gp;
     TimestampFloor := pick f FTimestampFloor TimestampFloor ngp gp;
     RecordMinLinks := pick f FRecordMinLinks RecordMinLinks ngp gp;
     RecordMaxValueSize := pick f FRecordMaxValueSize RecordMaxValueSize ngp gp;
     RecordMaxSize := pick f FRecordMaxSize RecordMaxSize ngp gp;
     RecordMaxForwardTimeDrift := pick f FRecordMaxForwardTimeDrift RecordMaxForwardTimeDrift ngp gp;
     AmendableFields := pick f FAmendableFields AmendableFields ngp gp |}.

(** [gp.initialized = true] *)
Definition set_initialized (gp : GenesisParameters) : GenesisParameters :=
  {| initialized := true;
     Name := Name gp;
     Contact := Contact gp;
     Comment := Comment gp;
     RootCertificateAuthorities := RootCertificateAuthorities gp;
     CertificateRequired := CertificateRequired gp;
     WorkRequired := WorkRequired gp;
     LinkKey := LinkKey gp;
     TimestampFloor := TimestampFloor gp;
     RecordMinLinks := RecordMinLinks gp;
     RecordMaxValueSize := RecordMaxValueSize gp;
     RecordMaxSize := RecordMaxSize gp;
     RecordMaxForwardTimeDrift := RecordMaxForwardTimeDrift gp;
     AmendableFields := AmendableFields gp |}.

(** The [switch strings.ToLower(k)] of [Update]: the case a lowered key
    selects, if any. *)
Definition field_of_key (lk : string) : option field :=
  if String.eqb lk "name" then Some FName else
  if String.eqb lk "contact" then Some FContact else
  if String.eqb lk "comment" then Some FComment else
  if String.eqb lk "rootcertificateauthorities" then Some FRootCertificateAuthorities else
  if String.eqb lk "certificaterequired" then Some FCertificateRequired else
  if String.eqb lk "workrequired" then Some FWorkRequired else
  if String.eqb lk "linkkey" then Some FLinkKey else
  if String.eqb lk "timestampfloor" then Some FTimestampFloor else
  if String.eqb lk "recordminlinks" then Some FRecordMinLinks else
  if String.eqb lk "recordmaxvaluesize" then Some FRecordMaxValueSize else
  if String.eqb lk "recordmaxsize" then Some FRecordMaxSize else
  if String.eqb lk "recordmaxforwardtimedrift" then Some FRecordMaxForwardTimeDrift else
  if String.eqb lk "amendablefields" then Some FAmendableFields else
  None.

(** The case labels of the switch, by the field whose case assigns. *)
Definition field_name (f : field) : string :=
  match f with
  | FName => "name"
  | FContact => "contact"
  | FComment => "comment"
  | FRootCertificateAuthorities => "rootcertificateauthorities"
  | FCertificateRequired => "certificaterequired"
  | FWorkRequired => "workrequired"
  | FLinkKey => "linkkey"
  | FTimestampFloor => "timestampfloor"
  | FRecordMinLinks => "recordminlinks"
  | FRecordMaxValueSize => "recordmaxvaluesize"
  | FRecordMaxSize => "recordmaxsize"
  | FRecordMaxForwardTimeDrift => "recordmaxforwardtimedrift"
  | FAmendableFields => "amendablefields"
  end.

(** The switch runs the case of [f] exactly on the label of [f]. *)
Lemma field_of_key_name lk f : field_of_key lk = Some f ↔ lk = field_name f.
Proof.
  split.
  - unfold field_of_key.
    repeat match goal with
           | |- context [String.eqb lk ?label] =>
               destruct (String.eqb_spec lk label) as [->|_];
               [by intros [= <-] |]
           end.
    done.
  - intros ->. by destruct f.
Qed.

Section Update.

(** The two [json.Unmarshal] calls of [Update] are encoding/json's: the first
    decodes the document into [map[string]*json.RawMessage], given here with
    its keys in the order in which [range] will yield them (any order, and
    nothing below needs the keys to be distinct), the second into a fresh
    [GenesisParameters]. *)
Variable json_Unmarshal_fields : bytes → result (list (string * bytes)).
Variable json_Unmarshal_params : bytes → result GenesisParameters.

(** [strings.EqualFold] and [strings.ToLower]. *)
Variable strings_EqualFold : string → string → bool.
Variable strings_ToLower : string → string.

(** [for _, af := range afields { if strings.EqualFold(af, k) { skip = false; break } }] *)
Fixpoint scan_amendable (afields : list string) (k : string) (skip : bool) : bool :=
  match afields with
  | [] => skip
  | af :: rest =>
      if strings_EqualFold af k then false else scan_amendable rest k skip
  end.

(** The body of [for k := range updFields]. *)
Definition update_key (afields : list string) (ngp gp : GenesisParameters)
    (k : string) : GenesisParameters :=
  let skip := initialized gp in
  let skip := if skip then scan_amendable afields k skip else skip in
  if negb skip then
    match field_of_key (strings_ToLower k) with
    | Some f => assign f ngp gp
    | None => gp
    end
  else gp.

(** [func (gp *GenesisParameters) Update(jsonValue []byte) error]: the
    receiver after the call and the error. *)
Definition Update (gp : GenesisParameters) (jsonValue : bytes)
    : GenesisParameters * option error :=
  if (length jsonValue =? 0)%nat then (gp, None)
  else
    match json_Unmarshal_fields jsonValue with
    | inl err => (gp, Some err)
    | inr updFields =>
        match json_Unmarshal_params jsonValue with
        | inl err => (gp, Some err)
        | inr ngp =>
            let afields := AmendableFields gp in
            let gp := foldl (λ gp kv, update_key afields ngp gp kv.1) gp updFields in
            (set_initialized gp, None)
        end
    end.

(** A key is let through when the parameters were never set, or when it
    folds to an entry of the amendable list. *)
Definition admitted_key (init : bool) (afields : list string) (k : string) : bool :=
  negb init || existsb (λ af, strings_EqualFold af k) afields.

(** Field [f] is written by the call: some key of the document is let
    through and selects [f]. *)
Definition written (init : bool) (afields : list string)
    (keys : list string) (f : field) : bool :=
  existsb (λ k, admitted_key init afields k
                && bool_decide (field_of_key (strings_ToLower k) = Some f)) keys.

Lemma get_assign f f' ngp gp :
  get f (assign f' ngp gp) = if decide (f = f') then get f ngp else get f gp.
Proof. destruct f, f'; reflexivity. Qed.

Lemma initialized_assign f ngp gp : initialized (assign f ngp gp) = initialized gp.
Proof. reflexivity. Qed.

Lemma get_set_initialized f gp : get f (set_initialized gp) = get f gp.
Proof. by destruct f. Qed.

Lemma scan_amendable_existsb afields k :
  scan_amendable afields k true
  = negb (existsb (λ af, strings_EqualFold af k) afields).
Proof.
  induction afields as [|af rest IH]; simpl; [done |].
  destruct (strings_EqualFold af k); [done | apply IH].
Qed.

Lemma update_key_admitted afields ngp gp k :
  update_key afields ngp gp k
  = if admitted_key (initialized gp) afields k
    then match field_of_key (strings_ToLower k) with
         | Some f => assign f ngp gp
         | None => gp
         end
    else gp.
Proof.
  unfold update_key, admitted_key.
  destruct (initialized gp); simpl; [| done].
  rewrite scan_amendable_existsb, negb_involutive.
  by destruct (existsb _ afields).
Qed.

Lemma initialized_update_key afields ngp gp k :
  initialized (update_key afields ngp gp k) = initialized gp.
Proof.
  rewrite update_key_admitted.
  destruct (admitted_key _ _ _); [| done].
  by destruct (field_of_key _).
Qed.

(** The loop over the keys, whatever their order: a written field holds the
    decoded value, any other field is untouched. *)
Lemma update_loop afields ngp keys : ∀ gp,
  let gp' := foldl (update_key afields ngp) gp keys in
  initialized gp' = initialized gp
  ∧ ∀ f, get f gp'
         = if written (initialized gp) afields keys f then get f ngp else get f gp.
Proof.
  induction keys as [|k keys IH]; intros gp; simpl; [done |].
  destruct (IH (update_key afields ngp gp k)) as [Hinit Hget].
  rewrite initialized_update_key in Hinit, Hget.
  split; [done |]. intros f. rewrite Hget. clear Hget Hinit IH.
  rewrite update_key_admitted.
  destruct (written _ _ keys f) eqn:Hrest; [by rewrite orb_true_r |].
  rewrite orb_false_r.
  destruct (admitted_key _ _ k); simpl; [| done].
  destruct (field_of_key (strings_ToLower k)) as [f'|] eqn:Hk.
  - rewrite get_assign. case_bool_decide as Hf; case_decide; congruence.
  - by rewrite bool_decide_eq_false_2.
Qed.

Lemma foldl_keys (afields : list string) ngp (updFields : list (string * bytes)) gp :
  foldl (λ gp kv, update_key afields ngp gp kv.1) gp updFields
  = foldl (update_key afields ngp) gp updFields.*1.
Proof.
  revert gp. induction updFields as [|kv l IH]; intros gp; simpl; [done | apply IH].
Qed.

(** The order in which [range] yields the keys does not matter. *)
Lemma written_Permutation init afields keys keys' f :
  keys ≡ₚ keys' → written init afields keys f = written init afields keys' f.
Proof.
  intros Hp. unfold written. apply eq_true_iff_eq.
  rewrite !existsb_exists. setoid_rewrite <- list_elem_of_In.
  by setoid_rewrite Hp.
Qed.

Lemma written_intro init afields keys f k :
  k ∈ keys → strings_ToLower k = field_name f →
  admitted_key init afields k = true →
  written init afields keys f = true.
Proof.
  intros Hk Hsel Hadm. unfold written. apply existsb_exists. exists k.
  split; [by apply list_elem_of_In |]. rewrite Hadm. simpl.
  apply bool_decide_eq_true_2. by apply field_of_key_name.
Qed.

Lemma written_elim init afields keys f :
  written init afields keys f = true →
  ∃ k, k ∈ keys ∧ strings_ToLower k = field_name f
       ∧ (init = true →
          ∃ af, af ∈ afields ∧ strings_EqualFold af k = true).
Proof.
  unfold written. intros (k & Hk & Hw)%existsb_exists.
  apply andb_true_iff in Hw as [Hadm Hsel].
  apply bool_decide_eq_true_1, field_of_key_name in Hsel.
  exists k. split; [by apply list_elem_of_In |]. split; [done |].
  intros ->. unfold admitted_key in Hadm. simpl in Hadm.
  apply existsb_exists in Hadm as (af & Haf & Hfold).
  exists af. by rewrite list_elem_of_In.
Qed.

(** C3, amended.  A call of [Update] on a non-empty document returns the
    error of the first [json.Unmarshal] that fails, and then has changed
    nothing: a document that does not decode as [GenesisParameters] is an
    error whatever its keys are.  When both decode, the call returns no
    error and leaves the parameters marked initialized.  On the first call
    ([initialized] still false) every key whose lowered name is a field's
    sets that field to the decoded value.  On a later call such a key sets
    its field if it folds to an entry of the [AmendableFields] the receiver
    had when the call began.  A field changes only through such a key, so
    any other present field and any unknown key is ignored; and a field
    holds either its old value or the decoded one. *)
Theorem Update_spec (gp : GenesisParameters) (jsonValue : bytes) :
  jsonValue ≠ [] →
  match json_Unmarshal_fields jsonValue, json_Unmarshal_params jsonValue with
  | inl err, _ | inr _, inl err => Update gp jsonValue = (gp, Some err)
  | inr updFields, inr ngp =>
      (Update gp jsonValue).2 = None
      ∧ initialized (Update gp jsonValue).1 = true
      ∧ (initialized gp = false →
         ∀ f k, k ∈ updFields.*1 → strings_ToLower k = field_name f →
                get f (Update gp jsonValue).1 = get f ngp)
      ∧ (initialized gp = true →
         ∀ f k af, k ∈ updFields.*1 → strings_ToLower k = field_name f →
                   af ∈ AmendableFields gp → strings_EqualFold af k = true →
                   get f (Update gp jsonValue).1 = get f ngp)
      ∧ (∀ f, get f (Update gp jsonValue).1 ≠ get f gp →
              ∃ k, k ∈ updFields.*1 ∧ strings_ToLower k = field_name f
                   ∧ (initialized gp = true →
                      ∃ af, af ∈ AmendableFields gp
                            ∧ strings_EqualFold af k = true))
      ∧ (∀ f, get f (Update gp jsonValue).1 = get f ngp
              ∨ get f (Update gp jsonValue).1 = get f gp)
  end.
Proof.
  intros Hne.
  destruct (json_Unmarshal_fields jsonValue) as [err|updFields] eqn:Hfields.
  { unfold Update. destruct jsonValue; [done |]. simpl. by rewrite Hfields. }
  destruct (json_Unmarshal_params jsonValue) as [err|ngp] eqn:Hparams.
  { unfold Update. destruct jsonValue; [done |]. simpl.
    by rewrite Hfields, Hparams. }
  assert (Hget : ∀ f, get f (Update gp jsonValue).1
          = if written (initialized gp) (AmendableFields gp) updFields.*1 f
            then get f ngp else get f gp).
  { intros f. unfold Update. destruct jsonValue; [done |]. simpl.
    rewrite Hfields, Hparams. simpl.
    rewrite get_set_initialized, foldl_keys.
    apply (update_loop (AmendableFields gp) ngp updFields.*1 gp). }
  split; [| split].
  - unfold Update. destruct jsonValue; [done |]. simpl.
    by rewrite Hfields, Hparams.
  - unfold Update. destruct jsonValue; [done |]. simpl.
    by rewrite Hfields, Hparams.
  - split; [| split; [| split]].
    + intros Hinit f k Hk Hsel.
      by rewrite Hget, Hinit, (written_intro _ _ _ _ k).
    + intros Hinit f k af Hk Hsel Haf Hfold.
      rewrite Hget, (written_intro _ _ _ _ k); try done.
      unfold admitted_key. apply orb_true_iff. right.
      apply existsb_exists. exists af. by rewrite <- list_elem_of_In.
    + intros f Hchanged. rewrite Hget in Hchanged.
      destruct (written _ _ _ f) eqn:Hw; [| done].
      by apply written_elim in Hw.
    + intros f. rewrite Hget. destruct (written _ _ _ f); [by left | by right].
Qed.

(** Once set, [initialized] stays set, whatever a later call is given. *)
Lemma Update_initialized_stable gp jsonValue :
  initialized gp = true → initialized (Update gp jsonValue).1 = true.
Proof.
  intros Hinit. unfold Update.
  destruct (length jsonValue =? 0)%nat; [done |].
  destruct (json_Unmarshal_fields jsonValue); [done |].
  by destruct (json_Unmarshal_params jsonValue).
Qed.

(** The empty document is accepted and changes nothing, not even
    [initialized]. *)
Lemma Update_empty gp : Update gp [] = (gp, None).
Proof. reflexivity. Qed.

End Update.

(** ** Running [Update] *)

(** [strings.ToLower] and [strings.EqualFold] on ASCII text, where Go's
    functions reduce to these. *)
Definition ascii_lower (c : ascii) : ascii :=
  let n := nat_of_ascii c in
  if ((65 <=? n) && (n <=? 90))%nat then ascii_of_nat (n + 32) else c.

Fixpoint ToLower_ascii (s : string) : string :=
  match s with
  | EmptyString => EmptyString
  | String c rest => String (ascii_lower c) (ToLower_ascii rest)
  end.

Definition EqualFold_ascii (a b : string) : bool :=
  String.eqb (ToLower_ascii a) (ToLower_ascii b).

(** The zero value of the struct. *)
Definition zero : GenesisParameters :=
  {| initialized := false; Name := ""; Contact := ""; Comment := "";
     RootCertificateAuthorities := []; CertificateRequired := false;
     WorkRequired := false; LinkKey := []; TimestampFloor := 0;
     RecordMinLinks := 0; RecordMaxValueSize := 0; RecordMaxSize := 0;
     RecordMaxForwardTimeDrift := 0; AmendableFields := [] |}.

(** Two documents, given by what encoding/json makes of them.  The first is
    [{"Name":"Sol","RecordMinLinks":3,"AmendableFields":["name"],"bogus":1}],
    the second [{"NAME":"Mars","recordminlinks":9}]; they are told apart by
    their second byte. *)
Definition doc_first : bytes := [123; 34; 78].
Definition doc_second : bytes := [123; 34; 78; 65].

Definition decoded_first : GenesisParameters :=
  assign FAmendableFields
    {| initialized := false; Name := "Sol"; Contact := ""; Comment := "";
       RootCertificateAuthorities := []; CertificateRequired := false;
       WorkRequired := false; LinkKey := []; TimestampFloor := 0;
       RecordMinLinks := 3; RecordMaxValueSize := 0; RecordMaxSize := 0;
       RecordMaxForwardTimeDrift := 0; AmendableFields := ["name"%string] |}
    {| initialized := false; Name := "Sol"; Contact := ""; Comment := "";
       RootCertificateAuthorities := []; CertificateRequired := false;
       WorkRequired := false; LinkKey := []; TimestampFloor := 0;
       RecordMinLinks := 3; RecordMaxValueSize := 0; RecordMaxSize := 0;
       RecordMaxForwardTimeDrift := 0; AmendableFields := [] |}.

Definition decoded_second : GenesisParameters :=
  {| initialized := false; Name := "Mars"; Contact := ""; Comment := "";
     RootCertificateAuthorities := []; CertificateRequired := false;
     WorkRequired := false; LinkKey := []; TimestampFloor := 0;
     RecordMinLinks := 9; RecordMaxValueSize := 0; RecordMaxSize := 0;
     RecordMaxForwardTimeDrift := 0; AmendableFields := [] |}.

Definition demo_fields (j : bytes) : result (list (string * bytes)) :=
  match j with
  | [_; _; _] =>
      inr [("Name", [34; 83; 111; 108; 34]); ("bogus", [49]);
           ("RecordMinLinks", [51]); ("AmendableFields", [91; 93])]%string
  | [_; _; _; _] =>
      inr [("recordminlinks", [57]); ("NAME", [34; 77; 97; 114; 115; 34])]%string
  | _ => inl "unexpected end of JSON input"%string
  end.

Definition demo_params (j : bytes) : result GenesisParameters :=
  match j with
  | [_; _; _] => inr decoded_first
  | [_; _; _; _] => inr decoded_second
  | _ => inl "unexpected end of JSON input"%string
  end.

Definition demo_Update : GenesisParameters → bytes → GenesisParameters * option error :=
  Update demo_fields demo_params EqualFold_ascii ToLower_ascii.

(** First call: everything present is taken.  Second call: only [Name] is
    amendable, so [RecordMinLinks] stays at 3. *)
Example Update_twice :
  let gp1 := (demo_Update zero doc_first).1 in
  let gp2 := (demo_Update gp1 doc_second).1 in
  (Name gp1, RecordMinLinks gp1, AmendableFields gp1, initialized gp1)
    = ("Sol"%string, 3, ["name"%string], true)
  ∧ (Name gp2, RecordMinLinks gp2, AmendableFields gp2, initialized gp2)
    = ("Mars"%string, 3, ["name"%string], true)
  ∧ (demo_Update gp2 doc_second).2 = None
  ∧ (demo_Update gp2 [123]).2 = Some "unexpected end of JSON input"%string.
Proof. vm_compute. done. Qed.

(** A third document, [{"RecordMinLinks":"x"}]: the map of raw messages
    takes any value, the struct wants a number there.  The decoders are the
    ones above for the other documents. *)
Definition doc_mistyped : bytes :=
  [123; 34; 82; 101; 99; 111; 114; 100; 77; 105; 110; 76; 105; 110; 107; 115;
   34; 58; 34; 120; 34; 125].

Definition mistyped_error : error :=
  "json: cannot unmarshal string into Go struct field GenesisParameters.RecordMinLinks of type uint".

Definition typed_fields (j : bytes) : result (list (string * bytes)) :=
  if bool_decide (j = doc_mistyped)
  then inr [("RecordMinLinks"%string, [34; 120; 34])]
  else demo_fields j.

Definition typed_params (j : bytes) : result GenesisParameters :=
  if bool_decide (j = doc_mistyped) then inl mistyped_error else demo_params j.

(** C3 as stated fails.  A field that is present with a value of the wrong
    type is neither applied nor ignored: on the first call nothing is
    overwritten, on a later call the field, which is not amendable, is not
    passed over in silence; both calls return the decoder's error. *)
Lemma Update_mistyped_field_is_an_error :
  typed_fields doc_mistyped = inr [("RecordMinLinks"%string, [34; 120; 34])]
  ∧ Update typed_fields typed_params EqualFold_ascii ToLower_ascii
      zero doc_mistyped
    = (zero, Some mistyped_error)
  ∧ initialized
      (Update typed_fields typed_params EqualFold_ascii ToLower_ascii
         zero doc_first).1 = true
  ∧ AmendableFields
      (Update typed_fields typed_params EqualFold_ascii ToLower_ascii
         zero doc_first).1 = ["name"%string]
  ∧ Update typed_fields typed_params EqualFold_ascii ToLower_ascii
      (Update typed_fields typed_params EqualFold_ascii ToLower_ascii
         zero doc_first).1 doc_mistyped
    = ((Update typed_fields typed_params EqualFold_ascii ToLower_ascii
          zero doc_first).1, Some mistyped_error).
Proof. vm_compute. repeat split. Qed.

Lemma Update_spec_witness :
  (demo_Update (demo_Update zero doc_first).1 doc_second).2 = None
  ∧ initialized (demo_Update (demo_Update zero doc_first).1 doc_second).1 = true
  ∧ (initialized (demo_Update zero doc_first).1 = false →
     ∀ f k, k ∈ ["recordminlinks"; "NAME"]%string →
            ToLower_ascii k = field_name f →
            get f (demo_Update (demo_Update zero doc_first).1 doc_second).1
            = get f decoded_second)
  ∧ (initialized (demo_Update zero doc_first).1 = true →
     ∀ f k af, k ∈ ["recordminlinks"; "NAME"]%string →
               ToLower_ascii k = field_name f →
               af ∈ AmendableFields (demo_Update zero doc_first).1 →
               EqualFold_ascii af k = true →
               get f (demo_Update (demo_Update zero doc_first).1 doc_second).1
               = get f decoded_second)
  ∧ (∀ f, get f (demo_Update (demo_Update zero doc_first).1 doc_second).1
          ≠ get f (demo_Update zero doc_first).1 →
          ∃ k, k ∈ ["recordminlinks"; "NAME"]%string
               ∧ ToLower_ascii k = field_name f
               ∧ (initialized (demo_Update zero doc_first).1 = true →
                  ∃ af, af ∈ AmendableFields (demo_Update zero doc_first).1
                        ∧ EqualFold_ascii af k = true))
  ∧ (∀ f, get f (demo_Update (demo_Update zero doc_first).1 doc_second).1
          = get f decoded_second
          ∨ get f (demo_Update (demo_Update zero doc_first).1 doc_second).1
            = get f (demo_Update zero doc_first).1).
Proof.
  exact (Update_spec demo_fields demo_params EqualFold_ascii ToLower_ascii
           (demo_Update zero doc_first).1 doc_second ltac:(discriminate)).
Defined.

End Genesis.

(* ===================================================================== *)
(** * Hash functions *)
(* ===================================================================== *)

Module Hashes.

(** ** Words and byte strings *)

(** Reduction to [w] bits, by masking. *)
Definition wrap (w x : Z) : Z := Z.land x (Z.ones w).

Lemma wrap_mod w x : 0 ≤ w → wrap w x = x mod 2 ^ w.
Proof. intros Hw. by apply Z.land_ones. Qed.

Definition rotr (w n x : Z) : Z :=
  wrap w (Z.lor (Z.shiftr x n) (Z.shiftl x (w - n))).

Definition rotl (w n x : Z) : Z :=
  wrap w (Z.lor (Z.shiftl x n) (Z.shiftr x (w - n))).

(** Big-endian and little-endian readings of a byte string, and the
    [n]-byte writings of an integer. *)
Definition be_value (bs : bytes) : Z := fold_left (λ acc b, acc * 256 + b) bs 0.

Fixpoint be_bytes (n : nat) (x : Z) : bytes :=
  match n with
  | O => []
  | S n' => be_bytes n' (x / 256) ++ [x mod 256]
  end.

Definition le_value (bs : bytes) : Z := fold_right (λ b acc, b + 256 * acc) 0 bs.

Fixpoint le_bytes (n : nat) (x : Z) : bytes :=
  match n with
  | O => []
  | S n' => x mod 256 :: le_bytes n' (x / 256)
  end.

(** Cut a byte string into pieces of [n] bytes (the last may be shorter);
    [fuel] bounds the number of pieces. *)
Fixpoint pieces (fuel n : nat) (l : bytes) : list bytes :=
  match fuel, l with
  | O, _ | _, [] => []
  | S fuel', _ => take n l :: pieces fuel' n (drop n l)
  end.

Definition blocks (n : nat) (l : bytes) : list bytes := pieces (length l) n l.

(** The bytes of an ASCII string. *)
Fixpoint bytes_of_string (s : string) : bytes :=
  match s with
  | EmptyString => []
  | String c rest => Z.of_nat (nat_of_ascii c) :: bytes_of_string rest
  end.

(** Lower-case hexadecimal, as [hex.EncodeToString] prints it. *)
Definition hex_digit (d : Z) : ascii :=
  ascii_of_nat (Z.to_nat (if d <? 10 then 48 + d else 87 + d)).

Fixpoint hex_EncodeToString (bs : bytes) : string :=
  match bs with
  | [] => EmptyString
  | b :: rest =>
      String (hex_digit (b / 16)) (String (hex_digit (b mod 16)) (hex_EncodeToString rest))
  end.

(** ** SHA-2 (FIPS 180-4), as crypto/sha256 and crypto/sha512 compute it *)

(** The two members of the family differ in their word size, constants and
    rotation amounts only. *)
Record sha2 := {
  word_bits : Z;
  round_constants : list Z;
  initial_hash : list Z;
  big_sigma0 : Z * Z * Z;
  big_sigma1 : Z * Z * Z;
  small_sigma0 : Z * Z * Z;
  small_sigma1 : Z * Z * Z
}.

Section SHA2.

Variable p : sha2.

Let w : Z := word_bits p.
Let word_bytes : nat := Z.to_nat (w / 8).
Let block_bytes : nat := (16 * word_bytes)%nat.

Definition add (x y : Z) : Z := wrap w (x + y).

Definition rot3 (r : Z * Z * Z) (x : Z) : Z :=
  let '(a, b, c) := r in
  Z.lxor (Z.lxor (rotr w a x) (rotr w b x)) (rotr w c x).

Definition rot2shr (r : Z * Z * Z) (x : Z) : Z :=
  let '(a, b, c) := r in
  Z.lxor (Z.lxor (rotr w a x) (rotr w b x)) (Z.shiftr x c).

Definition Ch (x y z : Z) : Z := Z.lxor (Z.land x y) (Z.land (Z.lnot x) z).

Definition Maj (x y z : Z) : Z :=
  Z.lxor (Z.lxor (Z.land x y) (Z.land x z)) (Z.land y z).

(** The message schedule, most recent word first. *)
Fixpoint extend_schedule (n : nat) (W : list Z) : list Z :=
  match n with
  | O => W
  | S n' =>
      let next :=
        add (add (rot2shr (small_sigma1 p) (nth 1 W 0)) (nth 6 W 0))
            (add (rot2shr (small_sigma0 p) (nth 14 W 0)) (nth 15 W 0)) in
      extend_schedule n' (next :: W)
  end.

Definition schedule (block : bytes) : list Z :=
  let W16 := be_value <$> blocks word_bytes block in
  rev (extend_schedule (length (round_constants p) - 16) (rev W16)).

Definition round (s : list Z) (kw : Z * Z) : list Z :=
  match s with
  | [a; b; c; d; e; f; g; h] =>
      let t1 := add (add (add h (rot3 (big_sigma1 p) e)) (Ch e f g)) (add kw.1 kw.2) in
      let t2 := add (rot3 (big_sigma0 p) a) (Maj a b c) in
      [add t1 t2; a; b; c; add d t1; e; f; g]
  | _ => s
  end.

Definition compress (H : list Z) (block : bytes) : list Z :=
  zip_with add H (fold_left round (zip (round_constants p) (schedule block)) H).

(** Padding: a one bit, zeros, and the bit length on two words. *)
Definition sha2_pad (msg : bytes) : bytes :=
  let len := length msg in
  let zeros := ((block_bytes - (len + 1 + 2 * word_bytes) mod block_bytes) mod block_bytes)%nat in
  msg ++ [128] ++ repeat 0 zeros ++ be_bytes (2 * word_bytes) (8 * Z.of_nat len).

Definition sha2_sum (msg : bytes) : bytes :=
  let H := fold_left compress (blocks block_bytes (sha2_pad msg)) (initial_hash p) in
  H ≫= be_bytes word_bytes.

End SHA2.

(** The constants of FIPS 180-4 by their definition: the round constants are
    the first [w] bits of the fractional parts of the cube roots of the first
    primes, the initial hash values those of the square roots of the first
    eight primes. *)
Definition is_prime (n : Z) : bool :=
  forallb (λ d, negb (n mod d =? 0)) (seqZ 2 (n - 2)).

Definition first_primes (count : nat) : list Z :=
  take count (filter (λ n, is_prime n = true) (seqZ 2 420)).

(** [floor (n ^ (1/k))], one bit at a time from bit [bits - 1] down. *)
Fixpoint integer_root (k n : Z) (bits : nat) (r : Z) : Z :=
  match bits with
  | O => r
  | S b =>
      let c := r + 2 ^ Z.of_nat b in
      integer_root k n b (if c ^ k <=? n then c else r)
  end.

Definition fractional_root (k w p : Z) : Z :=
  integer_root k (p * 2 ^ (k * w)) (Z.to_nat w + 8) 0 mod 2 ^ w.

Definition K256 : list Z :=
  Eval vm_compute in fractional_root 3 32 <$> first_primes 64.
Definition H256 : list Z :=
  Eval vm_compute in fractional_root 2 32 <$> first_primes 8.
Definition K512 : list Z :=
  Eval vm_compute in fractional_root 3 64 <$> first_primes 80.
Definition H512 : list Z :=
  Eval vm_compute in fractional_root 2 64 <$> first_primes 8.

Definition SHA256 : sha2 := {|
  word_bits := 32;
  round_constants := K256;
  initial_hash := H256;
  big_sigma0 := (2, 13, 22);
  big_sigma1 := (6, 11, 25);
  small_sigma0 := (7, 18, 3);
  small_sigma1 := (17, 19, 10)
|}.

Definition SHA512 : sha2 := {|
  word_bits := 64;
  round_constants := K512;
  initial_hash := H512;
  big_sigma0 := (28, 34, 39);
  big_sigma1 := (14, 18, 41);
  small_sigma0 := (1, 8, 7);
  small_sigma1 := (19, 61, 6)
|}.

Example constants_as_published :
  (round_constants SHA256 !! 0%nat, round_constants SHA256 !! 63%nat,
   initial_hash SHA256 !! 0%nat, length (round_constants SHA256))
    = (Some 0x428a2f98, Some 0xc67178f2, Some 0x6a09e667, 64%nat)
  ∧ (round_constants SHA512 !! 0%nat, round_constants SHA512 !! 79%nat,
     initial_hash SHA512 !! 7%nat, length (round_constants SHA512))
    = (Some 0x428a2f98d728ae22, Some 0x6c44198c4a475817,
       Some 0x5be0cd19137e2179, 80%nat).
Proof. vm_compute. done. Qed.

(** [sha256.Sum256] and [sha512.Sum512]. *)
Definition sha256_Sum256 : bytes → bytes := sha2_sum SHA256.
Definition sha512_Sum512 : bytes → bytes := sha2_sum SHA512.

(** ** SHA3-512 (FIPS 202), as golang.org/x/crypto/sha3 computes it *)

(** The state is 25 lanes of 64 bits, lane [(x, y)] at index [x + 5 y]. *)
Definition lane (A : list Z) (x y : nat) : Z := nth (x mod 5 + 5 * (y mod 5)) A 0.

Definition keccak_rotations : list Z :=
  [0; 1; 62; 28; 27; 36; 44; 6; 55; 20; 3; 10; 43; 25; 39; 41; 45; 15; 21; 8; 18; 2; 61; 56; 14].

Definition keccak_round_constants : list Z := [
   0x0000000000000001; 0x0000000000008082; 0x800000000000808a;
   0x8000000080008000; 0x000000000000808b; 0x0000000080000001;
   0x8000000080008081; 0x8000000000008009; 0x000000000000008a;
   0x0000000000000088; 0x0000000080008009; 0x000000008000000a;
   0x000000008000808b; 0x800000000000008b; 0x8000000000008089;
   0x8000000000008003; 0x8000000000008002; 0x8000000000000080;
   0x000000000000800a; 0x800000008000000a; 0x8000000080008081;
   0x8000000000008080; 0x0000000080000001; 0x8000000080008008].

Definition column (A : list Z) (x : nat) : Z :=
  fold_left Z.lxor ((λ y, lane A x y) <$> seq 0 5) 0.

Definition theta (A : list Z) : list Z :=
  (λ i, let x := (i mod 5)%nat in
        Z.lxor (nth i A 0)
               (Z.lxor (column A (x + 4)) (rotl 64 1 (column A (x + 1)))))
  <$> seq 0 25.

(** [rho] and [pi] together: lane [(x, y)], rotated, moves to
    [(y, 2 x + 3 y)]; read from the destination, lane [(X, Y)] comes from
    [(X + 3 Y, X)]. *)
Definition rho_pi (A : list Z) : list Z :=
  (λ i, let X := (i mod 5)%nat in
        let Y := (i / 5)%nat in
        let x := ((X + 3 * Y) mod 5)%nat in
        rotl 64 (nth (x + 5 * X) keccak_rotations 0) (lane A x X))
  <$> seq 0 25.

Definition chi (A : list Z) : list Z :=
  (λ i, let x := (i mod 5)%nat in
        let y := (i / 5)%nat in
        Z.lxor (lane A x y)
               (Z.land (wrap 64 (Z.lnot (lane A (x + 1) y))) (lane A (x + 2) y)))
  <$> seq 0 25.

Definition iota (rc : Z) (A : list Z) : list Z :=
  match A with
  | [] => []
  | a :: rest => Z.lxor a rc :: rest
  end.

Definition keccak_f (A : list Z) : list Z :=
  fold_left (λ A rc, iota rc (chi (rho_pi (theta A)))) keccak_round_constants A.

(** Padding for SHA-3: the domain bits 01, then pad10*1, up to the rate. *)
Definition sha3_pad (rate : nat) (msg : bytes) : bytes :=
  let q := (rate - length msg mod rate)%nat in
  msg ++ (if (q =? 1)%nat then [134]
          else [6] ++ repeat 0 (q - 2) ++ [128]).

Definition absorb (A : list Z) (block : bytes) : list Z :=
  let lanes := le_value <$> blocks 8 block in
  keccak_f (zip_with Z.lxor A (lanes ++ repeat 0 (25 - length lanes))).

Definition sha3_Sum512 (msg : bytes) : bytes :=
  let A := fold_left absorb (blocks 72 (sha3_pad 72 msg)) (repeat 0 25%nat) in
  take 64 (A ≫= le_bytes 8).

(** The published digests of the empty message and of "abc" (FIPS 180-4 and
    FIPS 202 example values). *)
Example digests_of_empty :
  hex_EncodeToString (sha256_Sum256 [])
    = "e3b0c44298fc1c149afbf4c8996fb92427ae41e4649b934ca495991b7852b855"%string
  ∧ hex_EncodeToString (sha512_Sum512 [])
    = "cf83e1357eefb8bdf1542850d66d8007d620e4050b5715dc83f4a921d36ce9ce47d0d13c5d85f2b0ff8318d2877eec2f63b931bd47417a81a538327af927da3e"%string
  ∧ hex_EncodeToString (sha3_Sum512 [])
    = "a69f73cca23a9ac5c8b567dc185a756e97c982164fe25859e0d1dcc1475c80a615b2123af1f5f94c11e3e9402c3ac558f500199d95b6d3e301758586281dcd26"%string.
Proof. vm_compute. done. Qed.

Example digests_of_abc :
  hex_EncodeToString (sha256_Sum256 [97; 98; 99])
    = "ba7816bf8f01cfea414140de5dae2223b00361a396177a9cb410ff61f20015ad"%string
  ∧ hex_EncodeToString (sha512_Sum512 [97; 98; 99])
    = "ddaf35a193617abacc417349ae20413112e6fa4e89a97ea20a9eeee64b55d39a2192992a274fc1a836ba3c23a3feebbd454d4423643ce80e2a9ac94fa54ca49f"%string
  ∧ hex_EncodeToString (sha3_Sum512 [97; 98; 99])
    = "b751850b1a57168a5693cd924b6b096e08f621827444f70d884f5d0240d2712e10e116e9192af3c91a7ec57647e3934057340b4cf408d5a56592f8274eec53f0"%string.
Proof. vm_compute. done. Qed.

(** A message longer than one block of each function: 150 bytes. *)
Example digests_of_long_message :
  let msg := Z.of_nat <$> seq 0 150 in
  hex_EncodeToString (sha256_Sum256 msg)
    = "f22b2e614e92d6453612b707385038300293d2cc292b148bc5335754b5ea30fd"%string
  ∧ hex_EncodeToString (sha512_Sum512 msg)
    = "2209cf6ba43f61d7e579651ebba0890686a9cdc1e045255494db0bc732c9512acbf72158d5738ff63b500aadccba000d25a521d41ab4ee6d92d38e8077b79c07"%string
  ∧ hex_EncodeToString (sha3_Sum512 msg)
    = "c1a65c8f589e6b6448a1fcf0b08542516d7e0fa6bf2577403c1f41e61936ba49aa267b08e4f3d5d0f432eb0f4f540cc1dd498efba236499aac9c506a6801d327"%string.
Proof. vm_compute. done. Qed.

Lemma length_be_bytes n x : length (be_bytes n x) = n.
Proof.
  revert x. induction n as [|n IH]; intros x; simpl; [done |].
  rewrite length_app, IH. simpl. lia.
Qed.

(** ** Shandwich256 *)

(** The message and the digest that [TestCore] pins. *)
Definition testStr : bytes := bytes_of_string "My hovercraft is full of eels.".

Definition pinned_digest : string :=
  "fcb43f704eb65e06be713636021d4168e9b355f9a8df24e14177f7ddc1105fea".

(** Modelled from the spec: shandwich.go is not among the sources.  Section
    4.1 gives [shandwich256(x) = truncate_128(sha3_512(x)) ‖
    truncate_128(sha256(x))], the first 16 bytes of each digest. *)
Definition Shandwich256_as_specified (x : bytes) : bytes :=
  take 16 (sha3_Sum512 x) ++ take 16 (sha256_Sum256 x).

(** Modelled from the spec: shandwich.go is not among the sources.  The spec
    describes a 32-byte composite of SHA-2 and SHA3-512 and pins its digest
    of [testStr], which [TestCore] checks; the sandwich that produces the
    pinned digest is SHA-256 over SHA-512(x) followed by SHA3-512(x). *)
Definition Shandwich256 (x : bytes) : bytes :=
  sha256_Sum256 (sha512_Sum512 x ++ sha3_Sum512 x).

(** Modelled from the spec: the incremental form ([NewShandwich256], [Write],
    [Sum]) of the same absent file.  A [hash.Hash] is represented by the
    bytes written to it so far: [Write] appends and never fails, [Sum b]
    appends to [b] the digest of everything written and leaves the state as
    it is.  The composite keeps one SHA-512 and one SHA3-512 hasher. *)
Record shandwich256 := {
  inner_sha512 : bytes;
  inner_sha3 : bytes
}.

Definition NewShandwich256 : shandwich256 :=
  {| inner_sha512 := []; inner_sha3 := [] |}.

Definition Write (h : shandwich256) (data : bytes) : shandwich256 * (Z * option error) :=
  ({| inner_sha512 := inner_sha512 h ++ data; inner_sha3 := inner_sha3 h ++ data |},
   (Z.of_nat (length data), None)).

Definition Sum (h : shandwich256) (b : bytes) : bytes :=
  b ++ sha256_Sum256 (sha512_Sum512 (inner_sha512 h) ++ sha3_Sum512 (inner_sha3 h)).

Definition write_all (h : shandwich256) (chunks : list bytes) : shandwich256 :=
  foldl (λ h data, (Write h data).1) h chunks.

Lemma write_all_inner h chunks :
  inner_sha512 (write_all h chunks) = inner_sha512 h ++ concat chunks
  ∧ inner_sha3 (write_all h chunks) = inner_sha3 h ++ concat chunks.
Proof.
  revert h. induction chunks as [|c chunks IH]; intros h.
  - simpl. by rewrite !app_nil_r.
  - change (write_all h (c :: chunks)) with (write_all (Write h c).1 chunks).
    destruct (IH (Write h c).1) as [-> ->]. simpl. by rewrite <- !app_assoc.
Qed.

Lemma length_bind_be_bytes k (H : list Z) :
  length (H ≫= be_bytes k) = (length H * k)%nat.
Proof.
  induction H as [|h H IH]; [done |].
  rewrite bind_cons, length_app, length_be_bytes, IH. simpl. lia.
Qed.

Lemma length_rounds p kws : ∀ s,
  length s = 8%nat → length (fold_left (round p) kws s) = 8%nat.
Proof.
  induction kws as [|kw kws IH]; intros s Hs; simpl; [done |].
  apply IH. by destruct s as [|a [|b [|c [|d [|e [|f [|g [|h [|]]]]]]]]].
Qed.

Lemma length_compress p bl : ∀ H,
  length H = 8%nat → length (fold_left (compress p) bl H) = 8%nat.
Proof.
  induction bl as [|b bl IH]; intros H HH; simpl; [done |].
  apply IH. unfold compress.
  rewrite length_zip_with, length_rounds by done. lia.
Qed.

Lemma length_sha2_sum p msg :
  length (initial_hash p) = 8%nat →
  length (sha2_sum p msg) = (8 * Z.to_nat (word_bits p / 8))%nat.
Proof.
  intros HIV. unfold sha2_sum.
  by rewrite length_bind_be_bytes, length_compress.
Qed.

Lemma length_Shandwich256 x : length (Shandwich256 x) = 32%nat.
Proof. unfold Shandwich256, sha256_Sum256. by rewrite length_sha2_sum. Qed.

(** C7 as the spec words it fails on the pinned message: the first 16
    bytes of SHA3-512 followed by the first 16 bytes of SHA-256 are not the
    digest that [TestCore] requires. *)
Lemma Shandwich256_as_specified_misses_pinned_digest :
  hex_EncodeToString (Shandwich256_as_specified testStr)
    = "cab50c2b76567be279982286fb03c0cfe0ccb644119ce5e1c25f495d979c7c90"%string
  ∧ hex_EncodeToString (Shandwich256_as_specified testStr) ≠ pinned_digest.
Proof. vm_compute. split; [reflexivity | discriminate]. Qed.

(** C7, amended.  [Shandwich256 x] is SHA-256 of SHA-512(x) followed by
    SHA3-512(x), 32 bytes long; the incremental form, fed the message in any
    number of pieces, sums to the one-shot digest (appended to the slice
    given to [Sum]); and the digest of "My hovercraft is full of eels." is
    the pinned one. *)
Theorem Shandwich256_pinned :
  (∀ x, Shandwich256 x = sha256_Sum256 (sha512_Sum512 x ++ sha3_Sum512 x)
        ∧ length (Shandwich256 x) = 32%nat)
  ∧ (∀ chunks b,
       Sum (write_all NewShandwich256 chunks) b = b ++ Shandwich256 (concat chunks))
  ∧ (∀ x, Sum (Write NewShandwich256 x).1 [] = Shandwich256 x)
  ∧ hex_EncodeToString (Shandwich256 testStr) = pinned_digest.
Proof.
  split; [| split; [| split]].
  - intros x. split; [reflexivity | apply length_Shandwich256].
  - intros chunks b. unfold Sum.
    by destruct (write_all_inner NewShandwich256 chunks) as [-> ->].
  - intros x. reflexivity.
  - vm_compute. reflexivity.
Qed.

End Hashes.

(* ===================================================================== *)
(** * Wire format: readers, writers and Go's uvarint *)
(* ===================================================================== *)

Module Wire.

(** A reader consumes a prefix of its input and hands back the rest;
    [None] is a read error (truncated or malformed input). *)
Definition Reader (A : Type) : Type := bytes → option (A * bytes).

(** A field of the wire format: how it is written, how it is read, and which
    values it can carry. *)
Record Codec (A : Type) := {
  put : A → bytes;
  get : Reader A;
  fits : A → Prop
}.

Arguments put {A} _ _.
Arguments get {A} _ _.
Arguments fits {A} _ _.

(** Reading back what was written, whatever follows it. *)
Class Lawful {A} (c : Codec A) : Prop :=
  get_put : ∀ a rest, fits c a → get c (put c a ++ rest) = Some (a, rest).

(** ** encoding/binary: [PutUvarint] and [ReadUvarint] *)

(** [for x >= 0x80 { buf[i] = byte(x) | 0x80; x >>= 7; i++ }; buf[i] = byte(x)].
    A [uint64] needs at most nine continuation bytes, which is the fuel. *)
Fixpoint PutUvarint_loop (fuel : nat) (x : Z) : bytes :=
  match fuel with
  | O => [x mod 256]
  | S fuel' =>
      if 128 <=? x
      then Z.lor (x mod 256) 128 :: PutUvarint_loop fuel' (Z.shiftr x 7)
      else [x mod 256]
  end.

Definition PutUvarint (x : Z) : bytes := PutUvarint_loop 9 x.

Definition MaxVarintLen64 : Z := 10.

(** [for i := 0; i < MaxVarintLen64; i++ { b := ReadByte(); ... }], with
    [n] iterations left. *)
Fixpoint ReadUvarint_loop (n : nat) (i x s : Z) (input : bytes) : option (Z * bytes) :=
  match n with
  | O => None
  | S n' =>
      match input with
      | [] => None
      | b :: rest =>
          if b <? 128 then
            if (i =? MaxVarintLen64 - 1) && (1 <? b) then None
            else Some (Z.lor x (uint64 (Z.shiftl b s)), rest)
          else
            ReadUvarint_loop n' (i + 1)
              (Z.lor x (uint64 (Z.shiftl (Z.land b 127) s))) (s + 7) rest
      end
  end.

Definition ReadUvarint : Reader Z := ReadUvarint_loop 10 0 0 0.

(** ** Fixed-size and repeated fields *)

Definition read_byte : Reader Z :=
  λ input, match input with [] => None | b :: rest => Some (b, rest) end.

Definition read_fixed (n : nat) : Reader bytes :=
  λ input, if (length input <? n)%nat then None
           else Some (take n input, drop n input).

Fixpoint read_many {A} (rd : Reader A) (n : nat) : Reader (list A) :=
  λ input,
    match n with
    | O => Some ([], input)
    | S n' =>
        '(a, rest) ← rd input;
        '(l, rest) ← read_many rd n' rest;
        Some (a :: l, rest)
    end.

(** A byte string behind its length. *)
Definition put_prefixed (data : bytes) : bytes :=
  PutUvarint (Z.of_nat (length data)) ++ data.

Definition read_prefixed : Reader bytes :=
  λ input, '(n, rest) ← ReadUvarint input; read_fixed (Z.to_nat n) rest.

(** ** Laws *)

Lemma lor_disjoint_add x y s :
  0 ≤ s → 0 ≤ x < 2 ^ s → 0 ≤ y → Z.lor x (Z.shiftl y s) = x + y * 2 ^ s.
Proof.
  intros Hs Hx Hy.
  rewrite <- Z.lxor_lor, <- Z.add_nocarry_lxor, Z.shiftl_mul_pow2; try done.
  all: apply Z.bits_inj'; intros n Hn; rewrite Z.land_spec, Z.bits_0.
  all: destruct (Z.lt_ge_cases n s) as [Hlt|Hge].
  all: try (rewrite (Z.shiftl_spec_low y s n) by done; apply andb_false_r).
  all: replace (Z.testbit x n) with false; [done |].
  all: symmetry; destruct (Z.eq_dec x 0) as [->|Hx0]; [apply Z.bits_0 |].
  all: apply Z.bits_above_log2; [lia |].
  all: apply Z.log2_lt_pow2; [lia |].
  all: assert (2 ^ s ≤ 2 ^ n) by (apply Z.pow_le_mono_r; lia); lia.
Qed.

Lemma lor_uint64_shiftl x y s :
  0 ≤ s → 0 ≤ x < 2 ^ s → 0 ≤ y → x + y * 2 ^ s < 2 ^ 64 →
  Z.lor x (uint64 (Z.shiftl y s)) = x + y * 2 ^ s.
Proof.
  intros Hs Hx Hy Hlt.
  assert (0 ≤ y * 2 ^ s) by (apply Z.mul_nonneg_nonneg; lia).
  unfold uint64. rewrite Z.mod_small by (rewrite Z.shiftl_mul_pow2; lia).
  by apply lor_disjoint_add.
Qed.

Lemma continuation_byte x :
  0 ≤ x →
  (Z.lor (x mod 256) 128 <? 128) = false
  ∧ Z.land (Z.lor (x mod 256) 128) 127 = x mod 128.
Proof.
  intros Hx.
  assert (H256 : 0 ≤ x mod 256 < 256) by (apply Z.mod_pos_bound; lia).
  assert (Hnn : 0 ≤ Z.lor (x mod 256) 128) by (apply Z.lor_nonneg; lia).
  split.
  - apply Z.ltb_ge.
    assert (Hb : Z.testbit (Z.lor (x mod 256) 128) 7 = true)
      by (rewrite Z.lor_spec; apply orb_true_r).
    destruct (Z.lt_ge_cases (Z.lor (x mod 256) 128) 128) as [Hlt|]; [| done].
    destruct (Z.eq_dec (Z.lor (x mod 256) 128) 0) as [H0|H0].
    { rewrite H0, Z.bits_0 in Hb. done. }
    rewrite Z.bits_above_log2 in Hb; [done | lia |].
    apply Z.log2_lt_pow2; lia.
  - change 127 with (Z.ones 7). rewrite Z.land_ones by lia.
    change 128 with (2 ^ 7) at 2. change 256 with (2 ^ 8).
    apply Z.bits_inj'. intros n Hn.
    destruct (Z.lt_ge_cases n 7) as [Hlt|Hge].
    + rewrite !Z.mod_pow2_bits_low, Z.lor_spec by lia.
      rewrite Z.mod_pow2_bits_low by lia.
      change 128 with (2 ^ 7). rewrite Z.pow2_bits_false by lia.
      apply orb_false_r.
    + by rewrite !Z.mod_pow2_bits_high by lia.
Qed.

Lemma ReadUvarint_loop_cons n i x s b rest :
  ReadUvarint_loop (S n) i x s (b :: rest)
  = if b <? 128 then
      if (i =? MaxVarintLen64 - 1) && (1 <? b) then None
      else Some (Z.lor x (uint64 (Z.shiftl b s)), rest)
    else ReadUvarint_loop n (i + 1)
           (Z.lor x (uint64 (Z.shiftl (Z.land b 127) s))) (s + 7) rest.
Proof. reflexivity. Qed.

(** The two loops in step: [i] bytes are behind, [x0] the value so far. *)
Lemma ReadUvarint_PutUvarint_loop fuel : ∀ i x x0 rest,
  Z.of_nat fuel + i = 9 → 0 ≤ i →
  0 ≤ x → 0 ≤ x0 < 2 ^ (7 * i) → x0 + x * 2 ^ (7 * i) < 2 ^ 64 →
  ReadUvarint_loop (S fuel) i x0 (7 * i) (PutUvarint_loop fuel x ++ rest)
  = Some (x0 + x * 2 ^ (7 * i), rest).
Proof.
  induction fuel as [|fuel IH]; intros i x x0 rest Hfuel Hi Hx Hx0 Hlt.
  - assert (i = 9) as -> by lia.
    assert (x < 2).
    { change (7 * 9) with 63 in Hlt.
      assert (x * 2 ^ 63 < 2 * 2 ^ 63) by (change (2 * 2 ^ 63) with (2 ^ 64); lia).
      apply Z.mul_lt_mono_pos_r with (2 ^ 63); lia. }
    simpl PutUvarint_loop. rewrite Z.mod_small by lia.
    simpl. destruct (Z.ltb_spec x 128); [| lia].
    destruct (Z.ltb_spec 1 x); [lia |]. simpl.
    by rewrite lor_uint64_shiftl by lia.
  - assert (Hs : 0 ≤ 7 * i) by lia.
    assert (Hp : 0 < 2 ^ (7 * i)) by (apply Z.pow_pos_nonneg; lia).
    cbn [PutUvarint_loop]. destruct (Z.leb_spec 128 x) as [Hbig|Hsmall].
    + rewrite <- app_comm_cons, ReadUvarint_loop_cons.
      destruct (continuation_byte x Hx) as [-> ->].
      assert (Hm : 0 ≤ x mod 128 < 128) by (apply Z.mod_pos_bound; lia).
      assert (Hxs : x = 128 * (x / 128) + x mod 128) by (apply Z.div_mod; lia).
      assert (Hq : 0 ≤ x / 128) by (apply Z.div_pos; lia).
      assert (Hpow : 2 ^ (7 * (i + 1)) = 128 * 2 ^ (7 * i)).
      { replace (7 * (i + 1)) with (7 + 7 * i) by lia.
        rewrite Z.pow_add_r by lia. done. }
      assert (Hle : (x mod 128) * 2 ^ (7 * i) ≤ x * 2 ^ (7 * i)).
      { apply Z.mul_le_mono_nonneg_r; lia. }
      rewrite lor_uint64_shiftl by lia.
      replace (7 * i + 7) with (7 * (i + 1)) by lia.
      rewrite Z.shiftr_div_pow2 by lia. change (2 ^ 7) with 128.
      rewrite IH; [f_equal; f_equal; rewrite Hpow; nia | lia | lia | lia | |].
      * rewrite Hpow. nia.
      * rewrite Hpow. nia.
    + rewrite Z.mod_small by lia.
      cbn [app]. rewrite ReadUvarint_loop_cons.
      destruct (Z.ltb_spec x 128); [| lia].
      assert (Hnine : (i =? MaxVarintLen64 - 1) && (1 <? x) = false).
      { destruct (Z.eqb_spec i (MaxVarintLen64 - 1)) as [->|]; [| done].
        simpl. apply Z.ltb_ge.
        change (7 * (MaxVarintLen64 - 1)) with 63 in Hlt.
        assert (x * 2 ^ 63 < 2 * 2 ^ 63) by (change (2 * 2 ^ 63) with (2 ^ 64); lia).
        assert (x < 2) by (apply Z.mul_lt_mono_pos_r with (2 ^ 63); lia). lia. }
      rewrite Hnine.
      by rewrite lor_uint64_shiftl by lia.
Qed.

Lemma ReadUvarint_PutUvarint x rest :
  0 ≤ x < 2 ^ 64 → ReadUvarint (PutUvarint x ++ rest) = Some (x, rest).
Proof.
  intros Hx. unfold ReadUvarint, PutUvarint.
  change (ReadUvarint_loop 10 0 0 0) with (ReadUvarint_loop 10 0 0 (7 * 0)).
  rewrite (ReadUvarint_PutUvarint_loop 9 0 x 0 rest); simpl; try lia.
  do 2 f_equal. lia.
Qed.

Lemma read_fixed_app (data rest : bytes) :
  read_fixed (length data) (data ++ rest) = Some (data, rest).
Proof.
  unfold read_fixed. rewrite length_app.
  destruct (Nat.ltb_spec (length data + length rest) (length data)); [lia |].
  by rewrite take_app_length, drop_app_length.
Qed.

Lemma read_prefixed_put data rest :
  Z.of_nat (length data) < 2 ^ 64 →
  read_prefixed (put_prefixed data ++ rest) = Some (data, rest).
Proof.
  intros Hlen. unfold read_prefixed, put_prefixed.
  rewrite <- app_assoc, ReadUvarint_PutUvarint by lia. simpl.
  rewrite Nat2Z.id. apply read_fixed_app.
Qed.

Lemma read_many_put {A} (rd : Reader A) (wr : A → bytes) (ok : A → Prop) :
  (∀ a rest, ok a → rd (wr a ++ rest) = Some (a, rest)) →
  ∀ (l : list A) rest, Forall ok l →
    read_many rd (length l) ((l ≫= wr) ++ rest) = Some (l, rest).
Proof.
  intros Hlaw. induction l as [|a l IH]; intros rest Hok; [done |].
  apply Forall_cons in Hok as [Ha Hl].
  rewrite bind_cons, <- app_assoc. cbn [length read_many].
  rewrite Hlaw by done. simpl. by rewrite IH.
Qed.

(** ** Three codecs *)

(** A byte string behind its length. *)
Definition prefixed : Codec bytes :=
  {| put := put_prefixed; get := read_prefixed;
     fits := λ data, Z.of_nat (length data) < 2 ^ 64 |}.

(** An optional part behind a presence byte. *)
Definition optional {A} (c : Codec A) : Codec (option A) :=
  {| put := λ o, match o with None => [0] | Some a => 1 :: put c a end;
     get := λ input,
       '(tag, rest) ← read_byte input;
       if tag =? 0 then Some (None, rest)
       else '(a, rest) ← get c rest; Some (Some a, rest);
     fits := λ o, match o with None => True | Some a => fits c a end |}.

(** Two parts in a row, mapped to and from a structure. *)
Definition both {A B C} (ca : Codec A) (cb : Codec B)
    (split : C → A * B) (join : A → B → C) : Codec C :=
  {| put := λ c, put ca (split c).1 ++ put cb (split c).2;
     get := λ input,
       '(a, rest) ← get ca input;
       '(b, rest) ← get cb rest;
       Some (join a b, rest);
     fits := λ c, fits ca (split c).1 ∧ fits cb (split c).2
                  ∧ join (split c).1 (split c).2 = c |}.

#[export] Instance prefixed_lawful : Lawful prefixed.
Proof. intros data rest Hfit. by apply read_prefixed_put. Qed.

#[export] Instance optional_lawful {A} (c : Codec A) `{!Lawful c} : Lawful (optional c).
Proof.
  intros [a|] rest Hfit; simpl; [| done].
  by rewrite get_put.
Qed.

#[export] Instance both_lawful {A B C} (ca : Codec A) (cb : Codec B)
    (split : C → A * B) (join : A → B → C) `{!Lawful ca, !Lawful cb} :
  Lawful (both ca cb split join).
Proof.
  intros c rest (Ha & Hb & Hjoin). simpl.
  rewrite <- app_assoc, get_put by done. simpl.
  rewrite get_put by done. simpl. by rewrite Hjoin.
Qed.

End Wire.

(* ===================================================================== *)
(** * Records: canonical serialization, hash, value masking *)
(* ===================================================================== *)

Module Records.

Import Wire.

(** Modelled from the spec: selector.go is not among the sources.  A selector
    holds the [Ordinal] and the [Claim], the two fields that [TestCore] reads
    back after a round trip. *)
Record Selector := {
  Ordinal : bytes;
  Claim : bytes
}.

(** Modelled from the spec: record.go is not among the sources.  The record
    of section 3, with the fields of its canonical layout. *)
Record LFRecord := {
  Flags : Z;
  Timestamp : Z;
  OwnerType : Z;
  Owner : bytes;
  Links : list bytes;
  Selectors : list Selector;
  Value : bytes;
  Certificate : option bytes;
  Work : option bytes;
  Signature : bytes
}.

(** Modelled from the spec: owner.go is not among the sources.  An owner is
    a key pair identified by a one-byte type tag. *)
Record OwnerKey := {
  KeyType : Z;
  Public : bytes;
  Private : bytes
}.

(** ** Counting keystreams *)





Section Format.

(** The 32-byte hash behind record IDs. *)
Variable Shandwich256 : bytes → bytes.

(** The size of a public key of each owner type ([None]: no such type); the
    spec asks for Ed25519 (32 bytes) and P-384 (49 bytes). *)
Variable owner_public_size : Z → option nat.

(** The spec fixes the order of the fields and says that variable ones are
    length-prefixed; it does not give the bytes of a selector
    ([bytes()]/[fromBytes()]), of the optional certificate and work, or of
    the signature.  They are codecs here, required only to read back what
    they wrote. *)
Variable selector_codec : Codec Selector.
Variable certificate_codec : Codec (option bytes).
Variable work_codec : Codec (option bytes).
Variable signature_codec : Z → Codec bytes.

(** Modelled from the spec: record.go is not among the sources.  Section 4.4:
    [[flags:1] [timestamp:varint] [owner-type:1] [owner-pub]
    [links-count:varint] [link-id × N] [selector-count:varint] [selector × N]
    [value-len:varint] [value-bytes] [cert?] [work?] [signature]]; the
    signable prefix is everything before the signature. *)
Definition signable_prefix (r : LFRecord) : bytes :=
  [Flags r]
  ++ PutUvarint (Timestamp r)
  ++ [OwnerType r]
  ++ Owner r
  ++ PutUvarint (Z.of_nat (length (Links r)))
  ++ (Links r ≫= id)
  ++ PutUvarint (Z.of_nat (length (Selectors r)))
  ++ (Selectors r ≫= put selector_codec)
  ++ put_prefixed (Value r)
  ++ put certificate_codec (Certificate r)
  ++ put work_codec (Work r).

(** Modelled from the spec: [MarshalTo(w)], the bytes written to [w]. *)
Definition MarshalTo (r : LFRecord) : bytes :=
  signable_prefix r ++ put (signature_codec (OwnerType r)) (Signature r).

(** Modelled from the spec: [UnmarshalFrom(r)], reading the layout above
    field by field; the record and the input left over, or [None] on
    truncated input or an invalid owner type. *)
Definition UnmarshalFrom : Reader LFRecord := λ input,
  '(flags, input) ← read_byte input;
  '(timestamp, input) ← ReadUvarint input;
  '(ownerType, input) ← read_byte input;
  publicSize ← owner_public_size ownerType;
  '(owner, input) ← read_fixed publicSize input;
  '(linkCount, input) ← ReadUvarint input;
  '(links, input) ← read_many (read_fixed 32) (Z.to_nat linkCount) input;
  '(selectorCount, input) ← ReadUvarint input;
  '(selectors, input) ← read_many (get selector_codec) (Z.to_nat selectorCount) input;
  '(value, input) ← read_prefixed input;
  '(certificate, input) ← get certificate_codec input;
  '(work, input) ← get work_codec input;
  '(signature, input) ← get (signature_codec ownerType) input;
  Some ({| Flags := flags; Timestamp := timestamp; OwnerType := ownerType;
           Owner := owner; Links := links; Selectors := selectors;
           Value := value; Certificate := certificate; Work := work;
           Signature := signature |}, input).

(** Modelled from the spec: [NewRecordFromBytes(b)]. *)
Definition NewRecordFromBytes (b : bytes) : result LFRecord :=
  match UnmarshalFrom b with
  | Some (r, _) => inr r
  | None => inl "invalid record"%string
  end.

(** Modelled from the spec: [Hash()], the record ID, is
    [shandwich256(signable prefix ‖ signature)], the hash of the canonical
    serialization. *)
Definition Hash (r : LFRecord) : bytes := Shandwich256 (MarshalTo r).

(** A valid record, as far as the layout is concerned: a 64-bit timestamp, a
    public key of the size of its type, 32-byte links, counts and lengths
    that fit a [uint64] (every Go slice does), and parts that fit their
    codecs. *)
Definition well_formed (r : LFRecord) : Prop :=
  0 ≤ Timestamp r < 2 ^ 64
  ∧ owner_public_size (OwnerType r) = Some (length (Owner r))
  ∧ Z.of_nat (length (Links r)) < 2 ^ 64
  ∧ Forall (λ link, length link = 32%nat) (Links r)
  ∧ Z.of_nat (length (Selectors r)) < 2 ^ 64
  ∧ Forall (fits selector_codec) (Selectors r)
  ∧ Z.of_nat (length (Value r)) < 2 ^ 64
  ∧ fits certificate_codec (Certificate r)
  ∧ fits work_codec (Work r)
  ∧ fits (signature_codec (OwnerType r)) (Signature r).

(** ** Value masking and record creation *)

(** The hash [H] and the keystream of invariant 4 of the spec ("AES-CTR-ish
    keystream keyed by H(maskingKey ‖ record-id-prefix)"): [keystream key i]
    is byte [i] of the stream under [key].  The prefix is taken from the
    parts of the record that exist before its value is masked. *)
Variable mask_hash : bytes → bytes.
Variable keystream : bytes → nat → Z.
Variable record_id_prefix : LFRecord → bytes.

(** Signing by the owner (may fail), the proof-of-work engine (may be
    cancelled, [None]) with the cost of a record of a given size, the
    selector construction, and the size limit. *)
Variable owner_sign : OwnerKey → bytes → result bytes.
Variable Wharrgarblr : Type.
Variable wharrgarbl_compute : Wharrgarblr → bytes → Z → option bytes.
Variable recordWharrgarblCost : Z → Z.
Variable selector_set : bytes → bytes → bytes → Selector.
Variable RecordMaxSize : Z.

(** The record before its value, selectors, work and signature exist. *)
Definition header (r : LFRecord) : LFRecord :=
  {| Flags := Flags r; Timestamp := Timestamp r; OwnerType := OwnerType r;
     Owner := Owner r; Links := Links r; Selectors := []; Value := [];
     Certificate := Certificate r; Work := None; Signature := [] |}.

Definition with_value (v : bytes) (r : LFRecord) : LFRecord :=
  {| Flags := Flags r; Timestamp := Timestamp r; OwnerType := OwnerType r;
     Owner := Owner r; Links := Links r; Selectors := Selectors r; Value := v;
     Certificate := Certificate r; Work := Work r; Signature := Signature r |}.

Definition with_selectors (sels : list Selector) (r : LFRecord) : LFRecord :=
  {| Flags := Flags r; Timestamp := Timestamp r; OwnerType := OwnerType r;
     Owner := Owner r; Links := Links r; Selectors := sels; Value := Value r;
     Certificate := Certificate r; Work := Work r; Signature := Signature r |}.

Definition with_work (w : option bytes) (r : LFRecord) : LFRecord :=
  {| Flags := Flags r; Timestamp := Timestamp r; OwnerType := OwnerType r;
     Owner := Owner r; Links := Links r; Selectors := Selectors r;
     Value := Value r; Certificate := Certificate r; Work := w;
     Signature := Signature r |}.

Definition with_signature (sig : bytes) (r : LFRecord) : LFRecord :=
  {| Flags := Flags r; Timestamp := Timestamp r; OwnerType := OwnerType r;
     Owner := Owner r; Links := Links r; Selectors := Selectors r;
     Value := Value r; Certificate := Certificate r; Work := Work r;
     Signature := sig |}.

Definition masking_stream (maskingKey : bytes) (r : LFRecord) : nat → Z :=
  keystream (mask_hash (maskingKey ++ record_id_prefix (header r))).

Definition xor_stream (stream : nat → Z) (data : bytes) : bytes :=
  imap (λ i b, Z.lxor b (stream i)) data.

(** Modelled from the spec: "maskingKey=nil ⇒ store plaintext; otherwise mask
    with the keystream".  Masking and unmasking are the same operation. *)
Definition mask_value (maskingKey : option bytes) (r : LFRecord) (value : bytes) : bytes :=
  match maskingKey with
  | None => value
  | Some key => xor_stream (masking_stream key r) value
  end.

(** Modelled from the spec: the bytes that [GetValue(maskingKey)] returns.
    The error it returns beside them is left out: the spec names no error
    case, [TestDatabase] throws the error away, and record.go is not among
    the sources. *)
Definition GetValue (r : LFRecord) (maskingKey : option bytes) : bytes :=
  mask_value maskingKey r (Value r).

(** Modelled from the spec: [NewRecord(value, links, maskingKey, selNames,
    selOrdinals, cert, ts, workProver?, flags, owner)] gives a fully signed
    record or fails with "sizes exceeded", "PoW cancelled" or the owner's
    signing error.  The spec leaves open what exactly the selector claims,
    the work and the signature are computed over; here each is computed over
    the hash of the signable prefix as built so far. *)
Definition NewRecord (value : bytes) (links : list bytes) (maskingKey : option bytes)
    (selectorNames selectorOrdinals : list bytes) (certificate : option bytes)
    (ts : Z) (workProver : option Wharrgarblr) (flags : Z) (owner : OwnerKey)
    : result LFRecord :=
  let r := {| Flags := flags; Timestamp := ts; OwnerType := KeyType owner;
              Owner := Public owner; Links := links; Selectors := [];
              Value := []; Certificate := certificate; Work := None;
              Signature := [] |} in
  let r := with_value (mask_value maskingKey r value) r in
  let claimHash := Shandwich256 (signable_prefix r) in
  let r := with_selectors
             (zip_with (λ name ordinal, selector_set name ordinal claimHash)
                       selectorNames selectorOrdinals) r in
  let size := Z.of_nat (length (signable_prefix r)) in
  if RecordMaxSize <? size then inl "record too large"%string
  else
    let work :=
      match workProver with
      | None => Some None
      | Some wg =>
          Some <$> wharrgarbl_compute wg (Shandwich256 (signable_prefix r))
                     (recordWharrgarblCost size)
      end in
    match work with
    | None => inl "proof of work cancelled"%string
    | Some work =>
        let r := with_work work r in
        match owner_sign owner (Shandwich256 (signable_prefix r)) with
        | inl err => inl err
        | inr sig => inr (with_signature sig r)
        end
    end.

Context `{!Lawful selector_codec, !Lawful certificate_codec,
          !Lawful work_codec, !∀ t, Lawful (signature_codec t)}.

Lemma UnmarshalFrom_MarshalTo r rest :
  well_formed r → UnmarshalFrom (MarshalTo r ++ rest) = Some (r, rest).
Proof.
  intros (Hts & Hown & Hnl & Hlinks & Hns & Hsels & Hval & Hcert & Hwork & Hsig).
  unfold UnmarshalFrom, MarshalTo, signable_prefix.
  repeat rewrite <- app_assoc. cbn [app read_byte mbind option_bind].
  rewrite ReadUvarint_PutUvarint by done. cbn [app read_byte mbind option_bind].
  rewrite Hown. cbn [mbind option_bind].
  rewrite read_fixed_app. cbn [mbind option_bind].
  rewrite ReadUvarint_PutUvarint by lia. cbn [mbind option_bind].
  rewrite Nat2Z.id.
  rewrite (read_many_put (read_fixed 32) id (λ link, length link = 32%nat)); [| | done].
  2: { intros a rest' <-. apply read_fixed_app. }
  cbn [mbind option_bind].
  rewrite ReadUvarint_PutUvarint by lia. cbn [mbind option_bind].
  rewrite Nat2Z.id.
  rewrite (read_many_put (get selector_codec) (put selector_codec)
             (fits selector_codec)); [| apply get_put | done].
  cbn [mbind option_bind].
  rewrite read_prefixed_put by done. cbn [mbind option_bind].
  rewrite get_put by done. cbn [mbind option_bind].
  rewrite get_put by done. cbn [mbind option_bind].
  rewrite get_put by done. cbn [mbind option_bind].
  by destruct r.
Qed.

(** C2.  Unmarshalling the bytes of a well-formed record succeeds, consumes
    them all, and yields a record with the same hash (indeed the same
    record). *)
Theorem Unmarshal_Marshal_Hash (r : LFRecord) :
  well_formed r →
  ∃ r', UnmarshalFrom (MarshalTo r) = Some (r', [])
        ∧ NewRecordFromBytes (MarshalTo r) = inr r'
        ∧ Hash r' = Hash r.
Proof.
  intros Hr. exists r.
  pose proof (UnmarshalFrom_MarshalTo r [] Hr) as Hround.
  rewrite app_nil_r in Hround. unfold NewRecordFromBytes. by rewrite Hround.
Qed.

(** *** Masking *)





(** What [NewRecord] puts into the record it returns. *)
Lemma NewRecord_fields value links maskingKey names ordinals certificate ts
    workProver flags owner r :
  NewRecord value links maskingKey names ordinals certificate ts workProver
    flags owner = inr r →
  Flags r = flags ∧ Timestamp r = ts
  ∧ OwnerType r = KeyType owner ∧ Owner r = Public owner
  ∧ Links r = links ∧ Certificate r = certificate
  ∧ Value r = mask_value maskingKey r value
  ∧ (is_Some (Work r) ↔ is_Some workProver).
Proof.
  unfold NewRecord.
  destruct (RecordMaxSize <? _); [done |].
  destruct workProver as [wg|]; simpl.
  - destruct (wharrgarbl_compute wg _ _) as [w|]; simpl; [| done].
    destruct (owner_sign owner _) as [err|sig]; [done |].
    intros [= <-]. simpl.
    repeat split; try done; eauto; by destruct maskingKey.
  - destruct (owner_sign owner _) as [err|sig]; [done |].
    intros [= <-]. simpl.
    repeat split; try done; try (by intros [? ?]); by destruct maskingKey.
Qed.



End Format.

(** ** An instance, to run the definitions *)

(** The parts the spec leaves open, filled in the plainest way: variable
    parts behind their length, optional parts behind a presence byte, owner
    types 1 (32-byte keys) and 2 (49-byte keys); SHA-256 in counter mode for
    the keystream, keyed hashes for signature, work and claims.  None of the
    theorems above depends on these choices. *)
Module Demo.

Definition owner_public_size (t : Z) : option nat :=
  if t =? 1 then Some 32%nat else if t =? 2 then Some 49%nat else None.

Definition selector_codec : Codec Selector :=
  both prefixed prefixed (λ s, (Ordinal s, Claim s))
       (λ o c, {| Ordinal := o; Claim := c |}).

Definition certificate_codec : Codec (option bytes) := optional prefixed.
Definition work_codec : Codec (option bytes) := optional prefixed.
Definition signature_codec (t : Z) : Codec bytes := prefixed.

Definition keystream (key : bytes) (i : nat) : Z :=
  nth (i mod 32) (Hashes.sha256_Sum256 (key ++ Hashes.be_bytes 8 (Z.of_nat (i / 32)))) 0.

Definition record_id_prefix (r : LFRecord) : bytes :=
  Owner r ++ PutUvarint (Timestamp r).

Definition owner_sign (o : OwnerKey) (h : bytes) : result bytes :=
  inr (Hashes.sha256_Sum256 (Private o ++ h)).

Definition wharrgarbl_compute (wg : unit) (h : bytes) (difficulty : Z) : option bytes :=
  Some (take 8 (Hashes.sha256_Sum256 (h ++ Hashes.be_bytes 4 difficulty))).

Definition selector_set (name ordinal claimHash : bytes) : Selector :=
  {| Ordinal := ordinal; Claim := Hashes.sha256_Sum256 (name ++ claimHash) |}.

Abbreviation MarshalTo :=
  (MarshalTo selector_codec certificate_codec work_codec signature_codec).

Abbreviation UnmarshalFrom :=
  (UnmarshalFrom owner_public_size selector_codec certificate_codec work_codec
     signature_codec).

Abbreviation Hash :=
  (Hash Hashes.Shandwich256 selector_codec certificate_codec work_codec
     signature_codec).

Abbreviation NewRecord :=
  (NewRecord Hashes.Shandwich256 selector_codec certificate_codec work_codec
     Hashes.sha256_Sum256 keystream record_id_prefix owner_sign unit
     wharrgarbl_compute (λ size, size) selector_set 65536).

Abbreviation GetValue :=
  (GetValue Hashes.sha256_Sum256 keystream record_id_prefix).

Definition owner : OwnerKey :=
  {| KeyType := 1; Public := Z.of_nat <$> seq 100 32; Private := Z.of_nat <$> seq 7 32 |}.

Definition maskingkey : bytes := Hashes.bytes_of_string "maskingkey".
Definition not_maskingkey : bytes := Hashes.bytes_of_string "not maskingkey".

(** The record that [NewRecord] makes of the arguments of [TestCore]'s
    marshalling loop, up to their random parts: three links, one selector,
    a masked value, time stamp 7. *)
Definition made_record : LFRecord :=
  {| Flags := 0; Timestamp := 7; OwnerType := 1;
     Owner := Z.of_nat <$> seq 100 32;
     Links := [repeat 1 32; repeat 2 32; repeat 3 32];
     Selectors :=
       [{| Ordinal := [48; 48; 48; 48];
           Claim := [180; 187; 104; 57; 126; 193; 233; 28; 7; 200; 90; 7; 166;
                     97; 125; 25; 113; 161; 191; 117; 127; 83; 193; 198; 105;
                     53; 204; 125; 95; 50; 188; 218] |}];
     Value := [158; 90; 252; 227];
     Certificate := None; Work := None;
     Signature := [9; 9; 193; 152; 205; 125; 241; 34; 186; 15; 62; 69; 210; 33;
                   120; 209; 145; 123; 88; 144; 234; 211; 183; 66; 82; 26; 58;
                   94; 251; 241; 37; 96] |}.






End Demo.



(** As in [TestDatabase]: the right key gives the value back, the wrong key
    gives other bytes. *)
Example GetValue_right_and_wrong_key :
  Demo.GetValue Demo.made_record (Some Demo.maskingkey) = [10; 20; 30; 40]
  ∧ Demo.GetValue Demo.made_record (Some Demo.not_maskingkey) ≠ [10; 20; 30; 40]
  ∧ Value Demo.made_record ≠ [10; 20; 30; 40].
Proof. vm_compute. repeat split; discriminate. Qed.

Example Marshal_Unmarshal_made :
  Demo.UnmarshalFrom (Demo.MarshalTo Demo.made_record) = Some (Demo.made_record, [])
  ∧ length (Demo.MarshalTo Demo.made_record) = 211%nat.
Proof. vm_compute. done. Qed.

Lemma made_well_formed :
  well_formed Demo.owner_public_size Demo.selector_codec Demo.certificate_codec
    Demo.work_codec Demo.signature_codec Demo.made_record.
Proof.
  unfold well_formed, Demo.made_record; cbn.
  repeat split; try done; repeat constructor; done.
Qed.

Lemma Unmarshal_Marshal_Hash_witness :
  ∃ r', Demo.UnmarshalFrom (Demo.MarshalTo Demo.made_record) = Some (r', [])
        ∧ NewRecordFromBytes Demo.owner_public_size Demo.selector_codec
            Demo.certificate_codec Demo.work_codec Demo.signature_codec
            (Demo.MarshalTo Demo.made_record) = inr r'
        ∧ Demo.Hash r' = Demo.Hash Demo.made_record.
Proof.
  exact (Unmarshal_Marshal_Hash Hashes.Shandwich256 Demo.owner_public_size
           Demo.selector_codec Demo.certificate_codec Demo.work_codec
           Demo.signature_codec Demo.made_record made_well_formed).
Defined.



End Records.

(* ===================================================================== *)
(** * Selectors *)
(* ===================================================================== *)

Module Selectors.

Import Records.

Section Selector.

(** The signer of section 4.1 on the 160-bit curve: a private key derived
    from the selector name, its compressed public key, a signature that
    embeds the recovery index, and key recovery ([None]: no key). *)
Variable PrivateKey : Type.
Variable key_from_name : bytes → PrivateKey.
Variable ECDSACompressPublicKey : PrivateKey → bytes.
Variable ECDSASignEmbedRecoveryIndex : PrivateKey → bytes → bytes.
Variable ECDSARecover : bytes → bytes → option bytes.

Variable Shandwich256 : bytes → bytes.

(** The spec gives the 32-byte key only "conceptually", as the hash of the
    name followed by the ordinal, built so that keys sort by (name bucket,
    ordinal); how the two are packed into 32 bytes is not stated, so the
    packing is a parameter. *)
Variable pack_key : bytes → bytes → bytes.

(** "Recovery must succeed for every signature produced by the embedding
    signer" (section 4.1). *)
Hypothesis recovery_sound : ∀ priv msg,
  ECDSARecover msg (ECDSASignEmbedRecoveryIndex priv msg)
  = Some (ECDSACompressPublicKey priv).

(** Modelled from the spec: selector.go is not among the sources.
    [set(name, ordinal, claimHash)] keeps the ordinal and signs the claim
    hash with the key of the name. *)
Definition set (name ordinal claimHash : bytes) : Selector :=
  {| Ordinal := ordinal;
     Claim := ECDSASignEmbedRecoveryIndex (key_from_name name) claimHash |}.

(** Modelled from the spec: the bucket of a public key, and [key(claimHash)],
    which recovers the public key of the name from the claim. *)
Definition bucket (public : bytes) : bytes := Shandwich256 public.

Definition key (s : Selector) (claimHash : bytes) : bytes :=
  match ECDSARecover claimHash (Claim s) with
  | Some public => pack_key (bucket public) (Ordinal s)
  | None => pack_key (bucket []) (Ordinal s)
  end.

(** Modelled from the spec: [MakeSelectorKey(name, ordinal)], the standalone
    form. *)
Definition MakeSelectorKey (name ordinal : bytes) : bytes :=
  pack_key (bucket (ECDSACompressPublicKey (key_from_name name))) ordinal.

(** C6.  The key of the selector made by [set name ordinal h], computed with
    the same claim hash [h], is [MakeSelectorKey name ordinal]; so it is the
    same for every [h]. *)
Theorem key_set_MakeSelectorKey (name ordinal h : bytes) :
  key (set name ordinal h) h = MakeSelectorKey name ordinal
  ∧ ∀ h', key (set name ordinal h') h' = key (set name ordinal h) h.
Proof.
  assert (Hkey : ∀ c, key (set name ordinal c) c = MakeSelectorKey name ordinal).
  { intros c. unfold key, set, MakeSelectorKey. simpl. by rewrite recovery_sound. }
  split; [apply Hkey |]. intros h'. by rewrite !Hkey.
Qed.

End Selector.

(** ** Ordering of keys *)

(** [bytes.Compare]: lexicographic order of byte strings, -1, 0 or 1. *)
Fixpoint bytes_Compare (a b : bytes) : Z :=
  match a, b with
  | [], [] => 0
  | [], _ :: _ => -1
  | _ :: _, [] => 1
  | x :: a', y :: b' =>
      if x <? y then -1 else if y <? x then 1 else bytes_Compare a' b'
  end.

Definition byte_string (l : bytes) : Prop := Forall (λ b, 0 ≤ b < 256) l.

(** The number a byte string spells, most significant byte first. *)
Fixpoint spelled (l : bytes) : Z :=
  match l with
  | [] => 0
  | b :: rest => b * 256 ^ Z.of_nat (length rest) + spelled rest
  end.

(** Ordinals behind one and the same prefix sort as the ordinals do: the
    "conceptual" key of the spec, bucket followed by ordinal, would keep the
    order of any two ordinals. *)
Lemma bytes_Compare_common_prefix (prefix a b : bytes) :
  bytes_Compare (prefix ++ a) (prefix ++ b) = bytes_Compare a b.
Proof.
  induction prefix as [|x prefix IH]; simpl; [done |].
  by rewrite Z.ltb_irrefl.
Qed.

Lemma spelled_bound l : byte_string l → 0 ≤ spelled l < 256 ^ Z.of_nat (length l).
Proof.
  induction 1 as [|b l Hb Hl IH]; simpl length; simpl spelled; [lia |].
  rewrite Nat2Z.inj_succ, Z.pow_succ_r by lia.
  assert (0 < 256 ^ Z.of_nat (length l)) by (apply Z.pow_pos_nonneg; lia).
  nia.
Qed.

Lemma bytes_Compare_spelled a : ∀ b,
  length a = length b → byte_string a → byte_string b →
  bytes_Compare a b = -1 → spelled a < spelled b.
Proof.
  induction a as [|x a IH]; intros [|y b] Hlen Ha Hb; try done.
  apply Forall_cons in Ha as [Hx Ha]. apply Forall_cons in Hb as [Hy Hb].
  injection Hlen as Hlen. simpl. rewrite <- Hlen.
  pose proof (spelled_bound a Ha). pose proof (spelled_bound b Hb) as Hbb.
  rewrite <- Hlen in Hbb.
  destruct (Z.ltb_spec x y); [intros _; nia |].
  destruct (Z.ltb_spec y x); [done |].
  intros Hc. assert (x = y) as -> by lia.
  apply IH in Hc; try done. lia.
Qed.

Lemma zeros_ascend n : bytes_Compare (repeat 0 n) (repeat 0 (S n)) = -1.
Proof. induction n as [|n IH]; [done |]. simpl in *. exact IH. Qed.

(** But no function into 32-byte strings keeps the order of all ordinals:
    [], [0], [0; 0], ... ascend for ever, and 32 bytes spell only [256 ^ 32]
    numbers.  A fixed-size key can be monotone on a bounded set of ordinals
    only, and the spec does not say which. *)
Lemma no_monotone_fixed_size_key (K : bytes → bytes) :
  (∀ ordinal, length (K ordinal) = 32%nat ∧ byte_string (K ordinal)) →
  ¬ ∀ a b, bytes_Compare a b = -1 → bytes_Compare (K a) (K b) = -1.
Proof.
  intros HK Hmono.
  assert (Hclimb : ∀ n, Z.of_nat n ≤ spelled (K (repeat 0 n))).
  { induction n as [|n IH].
    - destruct (HK []) as [_ Hb]. apply spelled_bound in Hb. simpl. lia.
    - destruct (HK (repeat 0 n)) as [Hl Hb].
      destruct (HK (repeat 0 (S n))) as [Hl' Hb'].
      pose proof (bytes_Compare_spelled _ _ (eq_trans Hl (eq_sym Hl')) Hb Hb'
                    (Hmono _ _ (zeros_ascend n))).
      lia. }
  specialize (Hclimb (Z.to_nat (256 ^ 32))).
  destruct (HK (repeat 0 (Z.to_nat (256 ^ 32)))) as [Hl Hb].
  apply spelled_bound in Hb. rewrite Hl in Hb.
  rewrite Z2Nat.id in Hclimb by lia.
  change (Z.of_nat 32) with 32 in Hb. lia.
Qed.

(** ** An instance: a signer whose signatures carry the public key *)

Module Demo.

Definition key_from_name (name : bytes) : bytes := Hashes.sha256_Sum256 name.

Definition public_of (priv : bytes) : bytes := Hashes.sha256_Sum256 (1 :: priv).

Definition sign (priv msg : bytes) : bytes :=
  public_of priv ++ Hashes.sha256_Sum256 (priv ++ msg).

Definition recover (msg sig : bytes) : option bytes := Some (take 32 sig).

(** Bucket and ordinal side by side, sixteen bytes each. *)
Definition pack_key (bucket ordinal : bytes) : bytes :=
  take 16 bucket ++ take 16 (ordinal ++ repeat 0 16).

Lemma recovery_sound priv msg : recover msg (sign priv msg) = Some (public_of priv).
Proof.
  unfold recover, sign, public_of. f_equal.
  rewrite take_app_length'; [done |].
  unfold Hashes.sha256_Sum256. by rewrite Hashes.length_sha2_sum.
Qed.

End Demo.

Lemma key_set_MakeSelectorKey_witness :
  let name := Hashes.bytes_of_string "name" in
  let ord := Hashes.bytes_of_string "ord" in
  let key := key Demo.recover Hashes.Shandwich256 Demo.pack_key in
  let set := set bytes Demo.key_from_name Demo.sign in
  let make := MakeSelectorKey bytes Demo.key_from_name Demo.public_of
                Hashes.Shandwich256 Demo.pack_key in
  key (set name ord [1; 2; 3]) [1; 2; 3] = make name ord
  ∧ ∀ h', key (set name ord h') h' = key (set name ord [1; 2; 3]) [1; 2; 3].
Proof.
  exact (key_set_MakeSelectorKey bytes Demo.key_from_name Demo.public_of
           Demo.sign Demo.recover Hashes.Shandwich256 Demo.pack_key
           Demo.recovery_sound
           (Hashes.bytes_of_string "name") (Hashes.bytes_of_string "ord") [1; 2; 3]).
Defined.

(** As in [TestCore]: the key is 32 bytes here, and two claim hashes give
    the same key. *)
Example MakeSelectorKey_name_ord :
  let name := Hashes.bytes_of_string "name" in
  let ord := Hashes.bytes_of_string "ord" in
  let make := MakeSelectorKey bytes Demo.key_from_name Demo.public_of
                Hashes.Shandwich256 Demo.pack_key in
  length (make name ord) = 32%nat
  ∧ key Demo.recover Hashes.Shandwich256 Demo.pack_key
      (set bytes Demo.key_from_name Demo.sign name ord [9; 9]) [9; 9]
    = make name ord.
Proof. vm_compute. done. Qed.

End Selectors.

(* ===================================================================== *)
(** * genesis.go: CreateGenesisRecords *)
(* ===================================================================== *)

Module GenesisRecords.

Import Genesis Records.

Section CreateGenesisRecords.

(** What the function calls and the sources do not contain.  The clock, the
    key generator and the record constructor (signing, proof of work) are
    effectful: they read and advance a [World]. *)
Variable World : Type.
Variable json_Marshal : GenesisParameters → result bytes.
Variable NewOwner : Z → World → result OwnerKey * World.
Variable TimeSec : World → Z * World.
Variable Wharrgarblr : Type.
Variable NewWharrgarblr : Z → Z → Wharrgarblr.
Variable RecordDefaultWharrgarblMemory : Z.
Variable NewRecord :
  bytes → list bytes → option bytes → list bytes → list bytes → option bytes →
  Z → option Wharrgarblr → Z → OwnerKey → World → result LFRecord * World.
Variable Hash : LFRecord → bytes.

(** [TimeSec] returns a [uint64]. *)
Hypothesis TimeSec_range : ∀ w, 0 ≤ (TimeSec w).1 < 2 ^ 64.

(** What [NewRecord] promises of the record it returns when it is given no
    masking key and no selectors (section 4.4 of the spec): the value in
    plain, the links, the time stamp, the owner's public key, and work
    exactly when it was given a prover. *)
Hypothesis NewRecord_contract :
  ∀ value links certificate ts workProver flags owner w r w',
    NewRecord value links None [] [] certificate ts workProver flags owner w
      = (inr r, w') →
    Value r = value ∧ Links r = links ∧ Timestamp r = ts
    ∧ OwnerType r = KeyType owner ∧ Owner r = Public owner
    ∧ (is_Some (Work r) ↔ is_Some workProver).

(** [for i := uint(1); i < genesisParameters.RecordMinLinks; i++ { ... }]
    with [n] iterations left; [now+uint64(i)] wraps as a [uint64] does. *)
Fixpoint genesis_loop (n : nat) (i : Z) (now : Z) (wg : option Wharrgarblr)
    (genesisOwner : OwnerKey) (records : list LFRecord) (links : list bytes)
    (w : World) : result (list LFRecord) * World :=
  match n with
  | O => (inr records, w)
  | S n' =>
      match NewRecord [] links None [] [] None (uint64 (now + uint64 i)) wg 0
              genesisOwner w with
      | (inl err, w) => (inl err, w)
      | (inr r, w) =>
          genesis_loop n' (i + 1) now wg genesisOwner
            (records ++ [r]) (links ++ [Hash r]) w
      end
  end.

Definition CreateGenesisRecords (genesisOwnerType : Z)
    (genesisParameters : GenesisParameters) (w : World)
    : result (list LFRecord * OwnerKey) * World :=
  match json_Marshal genesisParameters with
  | inl err => (inl err, w)
  | inr gpjson =>
      match NewOwner genesisOwnerType w with
      | (inl err, w) => (inl err, w)
      | (inr genesisOwner, w) =>
          let '(now, w) := TimeSec w in
          let wg :=
            if WorkRequired genesisParameters
            then Some (NewWharrgarblr RecordDefaultWharrgarblMemory 0)
            else None in
          match NewRecord gpjson [] None [] [] None now wg 0 genesisOwner w with
          | (inl err, w) => (inl err, w)
          | (inr r, w) =>
              match genesis_loop
                      (Z.to_nat (RecordMinLinks genesisParameters - 1)) 1 now wg
                      genesisOwner [r] [Hash r] w with
              | (inl err, w) => (inl err, w)
              | (inr records, w) => (inr (records, genesisOwner), w)
              end
          end
      end
  end.

(** What holds of the records made so far, [first] being the value of the
    first one. *)
Definition genesis_records (first : bytes) (now : Z) (wg : option Wharrgarblr)
    (owner : OwnerKey) (records : list LFRecord) : Prop :=
  ∀ (i : nat) r, records !! i = Some r →
    Value r = (if i is O then first else [])
    ∧ Links r = Hash <$> take i records
    ∧ Timestamp r = uint64 (now + Z.of_nat i)
    ∧ OwnerType r = KeyType owner ∧ Owner r = Public owner
    ∧ (is_Some (Work r) ↔ is_Some wg).

Lemma genesis_records_snoc first now wg owner records r :
  records ≠ [] →
  genesis_records first now wg owner records →
  Value r = [] → Links r = Hash <$> records →
  Timestamp r = uint64 (now + Z.of_nat (length records)) →
  OwnerType r = KeyType owner → Owner r = Public owner →
  (is_Some (Work r) ↔ is_Some wg) →
  genesis_records first now wg owner (records ++ [r]).
Proof.
  intros Hne Hold Hv Hl Ht Hot Ho Hw i r' Hi.
  destruct (decide (i < length records)%nat) as [Hlt|Hge].
  - rewrite lookup_app_l in Hi by done.
    rewrite take_app_le by lia. by apply Hold.
  - apply lookup_lt_Some in Hi as Hlen. rewrite length_app in Hlen. simpl in Hlen.
    assert (i = length records) as -> by lia.
    rewrite list_lookup_middle in Hi by done. injection Hi as <-.
    rewrite take_app_length.
    destruct records; [done |]. done.
Qed.

Lemma genesis_loop_spec first now wg owner n : ∀ i records links w records' w',
  records ≠ [] → 0 ≤ i → i = Z.of_nat (length records) →
  Z.of_nat n + i < 2 ^ 64 →
  links = Hash <$> records →
  genesis_records first now wg owner records →
  genesis_loop n i now wg owner records links w = (inr records', w') →
  length records' = (length records + n)%nat
  ∧ genesis_records first now wg owner records'.
Proof.
  induction n as [|n IH]; intros i records links w records' w' Hne Hi Hlen Hn Hlinks Hold.
  - simpl. intros [= <- <-]. split; [lia | done].
  - simpl.
    destruct (NewRecord [] links None [] [] None _ wg 0 owner w)
      as [[err|r] w1] eqn:Hnew; [done |].
    intros Hloop.
    apply NewRecord_contract in Hnew as (Hv & Hl & Ht & Hot & Ho & Hw).
    apply IH in Hloop as [Hlen' Hrec].
    + split; [rewrite Hlen', length_app; simpl; lia | done].
    + by destruct records.
    + lia.
    + rewrite length_app. simpl. lia.
    + lia.
    + by rewrite fmap_app, Hlinks.
    + apply genesis_records_snoc; try done.
      * by rewrite Hl, Hlinks.
      * rewrite Ht, <- Hlen. unfold uint64 at 2. by rewrite Z.mod_small by lia.
Qed.


(** The function always returns: with its error when the JSON encoder, the
    key generator or a record creation fails, with the records otherwise. *)
Lemma genesis_loop_succeeds n : ∀ i now wg owner records links w,
  (∀ value links' ts w0, ∃ r w1,
     NewRecord value links' None [] [] None ts wg 0 owner w0 = (inr r, w1)) →
  ∃ records' w', genesis_loop n i now wg owner records links w = (inr records', w').
Proof.
  induction n as [|n IH]; intros i now wg owner records links w Hnew; simpl.
  - eauto.
  - destruct (Hnew [] links (uint64 (now + uint64 i)) w) as (r & w1 & ->).
    by apply IH.
Qed.

Lemma CreateGenesisRecords_returns genesisOwnerType genesisParameters w gpjson owner w1 :
  json_Marshal genesisParameters = inr gpjson →
  NewOwner genesisOwnerType w = (inr owner, w1) →
  (∀ value links ts wg w0, ∃ r w',
     NewRecord value links None [] [] None ts wg 0 owner w0 = (inr r, w')) →
  ∃ records w',
    CreateGenesisRecords genesisOwnerType genesisParameters w
      = (inr (records, owner), w').
Proof.
  intros Hjson Howner Hnew. unfold CreateGenesisRecords.
  rewrite Hjson, Howner. destruct (TimeSec w1) as [now w2].
  set (wg := if WorkRequired genesisParameters then _ else _).
  destruct (Hnew gpjson [] now wg w2) as (r & w3 & ->).
  destruct (genesis_loop_succeeds
              (Z.to_nat (RecordMinLinks genesisParameters - 1)) 1 now wg owner
              [r] [Hash r] w3) as (records & w4 & ->); [| eauto].
  intros value links ts w0. apply Hnew.
Qed.

End CreateGenesisRecords.

(** ** Running it *)

Module Demo.

(** A clock that advances by one second per reading; the owner, the record
    constructor and the hash of [Records.Demo]; a JSON encoder that writes
    the network name only. *)
Definition json_Marshal (gp : GenesisParameters) : result bytes :=
  inr (Hashes.bytes_of_string ("{" ++ Name gp ++ "}")).

Definition NewOwner (t : Z) (clock : Z) : result OwnerKey * Z :=
  (inr Records.Demo.owner, clock).

Definition TimeSec (clock : Z) : Z * Z := (uint64 clock, clock + 1).

Definition NewRecord (value : bytes) (links : list bytes) (maskingKey : option bytes)
    (names ordinals : list bytes) (certificate : option bytes) (ts : Z)
    (workProver : option unit) (flags : Z) (owner : OwnerKey) (clock : Z)
    : result LFRecord * Z :=
  (Records.Demo.NewRecord value links maskingKey names ordinals certificate ts
     workProver flags owner, clock).

Definition Sol : GenesisParameters :=
  {| initialized := false; Name := "Sol"; Contact := ""; Comment := "";
     RootCertificateAuthorities := []; CertificateRequired := false;
     WorkRequired := true; LinkKey := []; TimestampFloor := 1551399635;
     RecordMinLinks := 3; RecordMaxValueSize := 1024; RecordMaxSize := 65536;
     RecordMaxForwardTimeDrift := 15; AmendableFields := [] |}.

Abbreviation CreateGenesisRecords :=
  (CreateGenesisRecords Z json_Marshal NewOwner TimeSec unit (λ _ _, tt) 0
     NewRecord Records.Demo.Hash).

Lemma TimeSec_range clock : 0 ≤ (TimeSec clock).1 < 2 ^ 64.
Proof. apply Z.mod_pos_bound. lia. Qed.

Lemma NewRecord_contract value links certificate ts workProver flags owner
    (clock : Z) r clock' :
  NewRecord value links None [] [] certificate ts workProver flags owner clock
    = (inr r, clock') →
  Value r = value ∧ Links r = links ∧ Timestamp r = ts
  ∧ OwnerType r = KeyType owner ∧ Owner r = Public owner
  ∧ (is_Some (Work r) ↔ is_Some workProver).
Proof.
  unfold NewRecord. intros [= Hnew _].
  apply NewRecord_fields in Hnew as (_ & Ht & Hot & Ho & Hl & _ & Hv & Hw).
  done.
Qed.

End Demo.

Example CreateGenesisRecords_Sol :
  match Demo.CreateGenesisRecords 1 Demo.Sol 1551399635 with
  | (inr (records, owner), clock) =>
      Timestamp <$> records = [1551399635; 1551399636; 1551399637]
      ∧ length <$> (Links <$> records) = [0; 1; 2]%nat
      ∧ Value <$> records = [Hashes.bytes_of_string "{Sol}"; []; []]
      ∧ owner = Records.Demo.owner
  | _ => False
  end.
Proof. vm_compute. done. Qed.

Lemma CreateGenesisRecords_Sol_returns :
  ∃ records owner clock',
    Demo.CreateGenesisRecords 1 Demo.Sol 1551399635 = (inr (records, owner), clock').
Proof. vm_compute. by eexists _, _, _. Qed.


End GenesisRecords.

(* ===================================================================== *)
(** * iset.h: the set as a whole *)
(* ===================================================================== *)

Module ISetLaws.

Import ISet.

Section Laws.

Variable ZTLF_xorshift64starOnce : Z → Z.

Abbreviation put := (ZTLF_ISet_put ZTLF_xorshift64starOnce).
Abbreviation contains := (ZTLF_ISet_contains ZTLF_xorshift64starOnce).
Abbreviation index := (bucket_index ZTLF_xorshift64starOnce).

(** A caller's loop: put the values of [l] one after the other, keeping the
    answers. *)
Fixpoint put_each (s : ZTLF_ISet) (l : list Z) : ZTLF_ISet * list bool :=
  match l with
  | [] => (s, [])
  | i :: rest =>
      let r := put s i in
      let done := put_each r.1 rest in
      (done.1, r.2 :: done.2)
  end.

(** What the layout of a set built by puts looks like: no bucket holds a
    value twice, and every value sits in the bucket its hash selects. *)
Definition well_bucketed (s : ZTLF_ISet) : Prop :=
  ∀ k v, s !! k = Some v → NoDup v ∧ ∀ i, i ∈ v → index i = k.

Lemma contains_put_each l : ∀ (s : gmap Z (list Z)) j,
  contains (put_each s l).1 j = contains s j || bool_decide (j ∈ l).
Proof.
  induction l as [|i l IH]; intros s j; cbn [put_each fst].
  - rewrite bool_decide_eq_false_2; [by rewrite orb_false_r | by inversion 1].
  - rewrite IH, contains_put, <- orb_assoc. f_equal.
    apply eq_true_iff_eq. rewrite orb_true_iff, !bool_decide_eq_true.
    rewrite elem_of_cons. tauto.
Qed.

(** X1. The set after any run of puts on a new set holds exactly the values
    that were put. *)
Theorem contains_after_puts (l : list Z) (j : Z) :
  contains (put_each ZTLF_ISet_new l).1 j = bool_decide (j ∈ l).
Proof. by rewrite contains_put_each. Qed.

(** X2. In a run of puts, a put answers [true] exactly when its value was
    neither in the set at the start nor put earlier in the run. *)
Theorem put_each_answers (l : list Z) : ∀ (s : gmap Z (list Z)) (k : nat) (i : Z),
  l !! k = Some i →
  (put_each s l).2 !! k
  = Some (negb (contains s i) && bool_decide (i ∉ take k l)).
Proof.
  induction l as [|x l IH]; intros s k i Hk; [done |].
  destruct k as [|k]; simpl in *.
  - injection Hk as ->. rewrite andb_true_r.
    f_equal. unfold ZTLF_ISet_put, ZTLF_ISet_contains.
    by destruct (vector_scan _ i).
  - rewrite (IH _ k i Hk), contains_put. f_equal.
    rewrite negb_orb, <- andb_assoc. f_equal.
    apply eq_true_iff_eq.
    rewrite andb_true_iff, negb_true_iff, bool_decide_eq_false, !bool_decide_eq_true.
    rewrite not_elem_of_cons. tauto.
Qed.

Lemma well_bucketed_new : well_bucketed ZTLF_ISet_new.
Proof. intros k v Hk. unfold ZTLF_ISet_new in Hk. by rewrite lookup_empty in Hk. Qed.

Lemma well_bucketed_put (s : gmap Z (list Z)) i :
  well_bucketed s → well_bucketed (put s i).1.
Proof.
  intros Hs. unfold ZTLF_ISet_put.
  destruct (vector_scan (bucket s (index i)) i) eqn:Hscan; simpl; [done |].
  assert (Hnew : i ∉ bucket s (index i)).
  { intros Hin. apply vector_scan_elem in Hin. congruence. }
  assert (Hold : NoDup (bucket s (index i))
                 ∧ ∀ j, j ∈ bucket s (index i) → index j = index i).
  { unfold bucket. destruct (s !! index i) as [v|] eqn:Hv; simpl.
    - by apply Hs.
    - split; [constructor | by inversion 1]. }
  intros k v Hk. destruct (decide (index i = k)) as [<-|Hne].
  - rewrite lookup_insert_eq in Hk. injection Hk as <-.
    destruct Hold as [Hnd Hidx]. split.
    + apply NoDup_app. split; [done |]. split; [| apply NoDup_singleton].
      intros j Hj ->%list_elem_of_singleton. done.
    + intros j [Hj| ->%list_elem_of_singleton]%elem_of_app; [by apply Hidx | done].
  - rewrite lookup_insert_ne in Hk by done. by apply Hs.
Qed.

Lemma well_bucketed_put_each l : ∀ s : gmap Z (list Z),
  well_bucketed s → well_bucketed (put_each s l).1.
Proof.
  induction l as [|i l IH]; intros s Hs; simpl; [done |].
  apply IH. by apply well_bucketed_put.
Qed.

(** X3. Every set built by puts from a new one is well bucketed: no bucket
    holds a value twice, and every value sits in the bucket its hash selects. *)
Theorem well_bucketed_after_puts (l : list Z) :
  well_bucketed (put_each ZTLF_ISet_new l).1.
Proof. apply well_bucketed_put_each, well_bucketed_new. Qed.

(** X4. In a well-bucketed set a member is stored once, in one bucket only. *)
Theorem member_stored_once (s : gmap Z (list Z)) (i : Z) :
  well_bucketed s → contains s i = true →
  ∃ v, s !! index i = Some v ∧ i ∈ v ∧ NoDup v
       ∧ ∀ k w, s !! k = Some w → i ∈ w → k = index i.
Proof.
  intros Hs Hin. unfold ZTLF_ISet_contains, bucket in Hin.
  apply vector_scan_elem in Hin.
  destruct (s !! index i) as [v|] eqn:Hv; simpl in Hin; [| by inversion Hin].
  exists v. split; [done |]. split; [done |]. split; [by apply (Hs _ _ Hv) |].
  intros k w Hk Hw. symmetry. by apply (Hs _ _ Hk).
Qed.

End Laws.

Lemma put_each_answers_witness :
  (put_each xorshift64star ZTLF_ISet_new [5; 9; 5]).2 !! 2%nat
  = Some (negb (ZTLF_ISet_contains xorshift64star ZTLF_ISet_new 5)
          && bool_decide (5 ∉ take 2 [5; 9; 5])).
Proof.
  exact (put_each_answers xorshift64star [5; 9; 5] ZTLF_ISet_new 2 5 eq_refl).
Defined.

Lemma member_9 :
  ZTLF_ISet_contains xorshift64star
    (put_each xorshift64star ZTLF_ISet_new [5; 9; 5]).1 9 = true.
Proof. rewrite contains_put_each. apply orb_true_r. Qed.

Lemma member_stored_once_witness :
  ∃ v, (put_each xorshift64star ZTLF_ISet_new [5; 9; 5]).1
         !! bucket_index xorshift64star 9 = Some v
       ∧ 9 ∈ v ∧ NoDup v
       ∧ ∀ k w, (put_each xorshift64star ZTLF_ISet_new [5; 9; 5]).1 !! k = Some w →
                9 ∈ w → k = bucket_index xorshift64star 9.
Proof.
  exact (member_stored_once xorshift64star
           (put_each xorshift64star ZTLF_ISet_new [5; 9; 5]).1 9
           (well_bucketed_put_each xorshift64star [5; 9; 5] ZTLF_ISet_new
              (well_bucketed_new xorshift64star))
           member_9).
Defined.

End ISetLaws.

(* ===================================================================== *)
(** * pkg/lf/node.go: the table of peers *)
(* ===================================================================== *)

Module NodeHosts.

Section Hosts.

(** [packedAddress] (the key of [hostsByAddr]) and [net.UDPAddr] are
    declared elsewhere; a map key is comparable, which is all that is
    needed of it.  [mapKey.set(ip, port, zone)] and the [net.UDPAddr]
    literal are their constructors. *)
Context {packedAddress UDPAddr : Type} `{Countable packedAddress}.
Variable packedAddress_set : bytes → Z → string → packedAddress.
Variable make_UDPAddr : bytes → Z → string → UDPAddr.

(** The fields of [Host] that node.go reads or writes; a field that the
    literal in [GetHost] leaves out starts at zero. *)
Record Host := {
  hostAddress : packedAddress;
  FirstReceive : Z;
  LastReceive : Z;
  LastSend : Z;
  RemoteAddress : UDPAddr;
  Latency : Z
}.

(** [ProtoHostTimeout] (milliseconds) and [Host.Ping] are declared
    elsewhere.  [Ping] is given the node to send through; what it does to
    the [Host] it is called on is a parameter.  It is called with
    [hostsLock] held, so it cannot take the lock itself: the slice and the
    map are as it found them. *)
Variable ProtoHostTimeout : Z.
Variable Ping : Host → Host.

(** The part of [Node] that [hostsLock] guards: [hosts []*Host] and
    [hostsByAddr map[packedAddress]*Host], with the [Host] objects the
    pointers lead to.  A pointer is a number, the heap maps it to its
    object, so that the slice and the map share the objects as in Go. *)
Record HostTable := {
  heap : gmap nat Host;
  hosts : list nat;
  hostsByAddr : gmap packedAddress nat
}.

(** [GetHost] when the address is unknown and [createIfMissing] is set: the
    new [Host], and between [Lock] and [Unlock] its entry in the slice and
    in the map.  [timeMs] is what [TimeMs()] returns. *)
Definition register (n : HostTable) (ip : bytes) (port : Z) (zone : string)
    (timeMs : Z) : HostTable * nat :=
  let mapKey := packedAddress_set ip port zone in
  let h := fresh (dom (heap n)) in
  ({| heap := <[h := {| hostAddress := mapKey; FirstReceive := timeMs;
                        LastReceive := 0; LastSend := 0;
                        RemoteAddress := make_UDPAddr ip port zone;
                        Latency := -1 |}]> (heap n);
      hosts := hosts n ++ [h];
      hostsByAddr := <[mapKey := h]> (hostsByAddr n) |}, h).

(** [GetHost] from [if h == nil] on, where [h] is what the lookup between
    [RLock] and [RUnlock] has found; [None] is [nil]. *)
Definition GetHost_found (h : option nat) (n : HostTable) (ip : bytes)
    (port : Z) (zone : string) (createIfMissing : bool) (timeMs : Z)
    : HostTable * option nat :=
  match h with
  | Some h => (n, Some h)
  | None =>
      if createIfMissing then
        let made := register n ip port zone timeMs in (made.1, Some made.2)
      else (n, None)
  end.

(** [func (n *Node) GetHost(ip, port, zone, createIfMissing) *Host], with no
    other thread in between. *)
Definition GetHost (n : HostTable) (ip : bytes) (port : Z) (zone : string)
    (createIfMissing : bool) (timeMs : Z) : HostTable * option nat :=
  GetHost_found (hostsByAddr n !! packedAddress_set ip port zone)
    n ip port zone createIfMissing timeMs.

(** Two threads in [GetHost] with [createIfMissing], both past [RUnlock]
    before either takes [Lock]: both lookups see the table as it was. *)
Definition GetHost_at_once (n : HostTable) (ip : bytes) (port : Z)
    (zone : string) (timeA timeB : Z)
    : HostTable * option nat * option nat :=
  let hA := hostsByAddr n !! packedAddress_set ip port zone in
  let hB := hostsByAddr n !! packedAddress_set ip port zone in
  let a := GetHost_found hA n ip port zone true timeA in
  let b := GetHost_found hB a.1 ip port zone true timeB in
  (b.1, a.2, b.2).

(** [(now - h.LastReceive) > ProtoHostTimeout] and
    [(now - h.LastSend) > (ProtoHostTimeout / 3)], in [uint64]. *)
Definition timed_out (now : Z) (h : Host) : bool :=
  ProtoHostTimeout <? uint64 (now - LastReceive h).

Definition ping_due (now : Z) (h : Host) : bool :=
  ProtoHostTimeout / 3 <? uint64 (now - LastSend h).

(** One turn of [for i := 0; i < len(n.hosts); i++] in the cleanup thread:
    the table and [hostCount] before and after.  A pointer that leads
    nowhere is a nil dereference, [None]. *)
Definition cleanup_step (now : Z) (st : HostTable * nat) (i : nat)
    : option (HostTable * nat) :=
  let '(n, hostCount) := st in
  p ← hosts n !! i;
  h ← heap n !! p;
  if timed_out now h then
    Some ({| heap := heap n; hosts := hosts n;
             hostsByAddr := delete (hostAddress h) (hostsByAddr n) |}, hostCount)
  else
    let heap' := if ping_due now h then <[p := Ping h]> (heap n) else heap n in
    Some ({| heap := heap'; hosts := <[hostCount := p]> (hosts n);
             hostsByAddr := hostsByAddr n |}, S hostCount).

Fixpoint cleanup_loop (now : Z) (indices : list nat) (st : HostTable * nat)
    : option (HostTable * nat) :=
  match indices with
  | [] => Some st
  | i :: rest => st' ← cleanup_step now st i; cleanup_loop now rest st'
  end.

(** One pass of the cleanup thread, between [Lock] and [Unlock]:
    [hostCount := 0; now := TimeMs(); for ... ; n.hosts = n.hosts[0:hostCount]]. *)
Definition cleanup_pass (n : HostTable) (now : Z) : option HostTable :=
  '(n', hostCount) ← cleanup_loop now (seq 0 (length (hosts n))) (n, O);
  Some {| heap := heap n'; hosts := take hostCount (hosts n');
          hostsByAddr := hostsByAddr n' |}.

(** The slice and the map describe the same peers: no pointer twice in the
    slice, every peer of the slice is in the map under its own address, and
    the map holds nothing else. *)
Definition consistent (n : HostTable) : Prop :=
  NoDup (hosts n)
  ∧ (∀ p, p ∈ hosts n →
       ∃ h, heap n !! p = Some h ∧ hostsByAddr n !! hostAddress h = Some p)
  ∧ (∀ k p, hostsByAddr n !! k = Some p →
       p ∈ hosts n ∧ ∃ h, heap n !! p = Some h ∧ hostAddress h = k).

Definition empty_table : HostTable :=
  {| heap := ∅; hosts := []; hostsByAddr := ∅ |}.

(** Whether the peer behind [p] is kept by a pass at [now]. *)
Definition alive (now : Z) (hp : gmap nat Host) (p : nat) : bool :=
  match hp !! p with
  | Some h => negb (timed_out now h)
  | None => false
  end.


(** What a pass at [now] leaves in the heap behind [p], and in the map, when
    it started from heap [hp] and has gone through the pointers [seen]. *)
Definition touched (now : Z) (hp : gmap nat Host) (seen : list nat) (p : nat)
    : option Host :=
  match hp !! p with
  | Some h =>
      if bool_decide (p ∈ seen) && negb (timed_out now h) && ping_due now h
      then Some (Ping h) else Some h
  | None => None
  end.

Definition purge_one (now : Z) (hp : gmap nat Host)
    (m : gmap packedAddress nat) (p : nat) : gmap packedAddress nat :=
  match hp !! p with
  | Some h => if timed_out now h then delete (hostAddress h) m else m
  | None => m
  end.

Definition purged (now : Z) (hp : gmap nat Host) (seen : list nat)
    (m : gmap packedAddress nat) : gmap packedAddress nat :=
  foldl (purge_one now hp) m seen.

(** *** GetHost *)

Lemma consistent_allocated n p : consistent n → p ∈ hosts n → p ∈ dom (heap n).
Proof.
  intros (_ & Hin & _) Hp. destruct (Hin p Hp) as (h & Hh & _).
  apply elem_of_dom. eauto.
Qed.

Lemma consistent_empty : consistent empty_table.
Proof.
  split; [constructor |]. split.
  - intros p Hp. inversion Hp.
  - intros k p Hk. simpl in Hk. by rewrite lookup_empty in Hk.
Qed.

Lemma GetHost_consistent n ip port zone create timeMs :
  consistent n → consistent (GetHost n ip port zone create timeMs).1.
Proof.
  intros Hn. unfold GetHost, GetHost_found, register.
  destruct (hostsByAddr n !! packedAddress_set ip port zone) as [p|] eqn:Hlook;
    [done |].
  destruct create; [| done]. simpl.
  set (key := packedAddress_set ip port zone) in *.
  set (q := fresh (dom (heap n))).
  assert (Hq : q ∉ dom (heap n)) by apply is_fresh.
  assert (Hqh : q ∉ hosts n).
  { intros Hin. by apply Hq, consistent_allocated. }
  destruct Hn as (Hnd & Hin & Hmap).
  split; [| split]; simpl.
  - apply NoDup_app. split; [done |]. split; [| apply NoDup_singleton].
    intros x Hx ->%list_elem_of_singleton. done.
  - intros p [Hp| ->%list_elem_of_singleton]%elem_of_app.
    + destruct (Hin p Hp) as (h & Hh & Hk). exists h.
      assert (p ≠ q) by (intros ->; done).
      rewrite lookup_insert_ne by done. split; [done |].
      rewrite lookup_insert_ne; [done |]. intros Heq. rewrite <- Heq in Hk.
      congruence.
    + eexists. rewrite lookup_insert_eq. split; [done |]. simpl.
      by rewrite lookup_insert_eq.
  - intros k p Hk. destruct (decide (key = k)) as [<-|Hne].
    + rewrite lookup_insert_eq in Hk. injection Hk as <-.
      split; [apply elem_of_app; right; by apply list_elem_of_singleton |].
      eexists. by rewrite lookup_insert_eq.
    + rewrite lookup_insert_ne in Hk by done.
      destruct (Hmap k p Hk) as (Hp & h & Hh & Hkey).
      split; [apply elem_of_app; by left |]. exists h.
      rewrite lookup_insert_ne; [done |]. intros <-. done.
Qed.

(** X5. [GetHost] with [createIfMissing]: the peer returned is in the table
    under the address asked for; asking again, creating or not, returns the
    same pointer and changes nothing; other addresses resolve as before; and
    if the address was unknown, the peer is new, last in the slice, stamped
    with the time of the call and with no latency, nothing received and
    nothing sent yet. *)
Theorem GetHost_create (n : HostTable) (ip : bytes) (port : Z) (zone : string)
    (timeMs : Z) :
  let n1 := (GetHost n ip port zone true timeMs).1 in
  ∃ p, (GetHost n ip port zone true timeMs).2 = Some p
    ∧ hostsByAddr n1 !! packedAddress_set ip port zone = Some p
    ∧ (∀ create timeMs', GetHost n1 ip port zone create timeMs' = (n1, Some p))
    ∧ (∀ k, k ≠ packedAddress_set ip port zone →
         hostsByAddr n1 !! k = hostsByAddr n !! k)
    ∧ (hostsByAddr n !! packedAddress_set ip port zone = None →
         hosts n1 = hosts n ++ [p] ∧ (p ∉ dom (heap n))
         ∧ heap n1 !! p = Some {| hostAddress := packedAddress_set ip port zone;
                                  FirstReceive := timeMs; LastReceive := 0;
                                  LastSend := 0;
                                  RemoteAddress := make_UDPAddr ip port zone;
                                  Latency := -1 |}
         ∧ ∀ q, q ≠ p → heap n1 !! q = heap n !! q).
Proof.
  unfold GetHost, GetHost_found, register.
  destruct (hostsByAddr n !! packedAddress_set ip port zone) as [p|] eqn:Hlook;
    simpl.
  - exists p. repeat split; try done. intros create t'. by rewrite Hlook.
  - eexists. split; [done |]. split; [apply lookup_insert_eq |].
    split; [| split].
    + intros create t'. by rewrite (lookup_insert_eq (hostsByAddr n)).
    + intros k Hk. by apply lookup_insert_ne.
    + intros _. split; [done |]. split; [apply is_fresh |].
      split; [apply lookup_insert_eq |].
      intros q Hq. by apply lookup_insert_ne.
Qed.

(** [GetHost] without [createIfMissing] never changes the table, and returns
    [nil] exactly for an address that is not in the map. *)
Theorem GetHost_lookup (n : HostTable) (ip : bytes) (port : Z) (zone : string)
    (timeMs : Z) :
  (GetHost n ip port zone false timeMs).1 = n
  ∧ (GetHost n ip port zone false timeMs).2
    = hostsByAddr n !! packedAddress_set ip port zone.
Proof.
  unfold GetHost, GetHost_found, register.
  by destruct (hostsByAddr n !! packedAddress_set ip port zone).
Qed.

(** *** The cleanup pass *)

Lemma touched_nil now hp p : touched now hp [] p = hp !! p.
Proof. unfold touched. by destruct (hp !! p). Qed.

Lemma touched_snoc_ne now hp seen p q :
  q ≠ p → touched now hp (seen ++ [p]) q = touched now hp seen q.
Proof.
  intros Hne. unfold touched. destruct (hp !! q) as [h|]; [| done].
  rewrite (bool_decide_ext (q ∈ seen ++ [p]) (q ∈ seen)); [done |].
  rewrite elem_of_app, list_elem_of_singleton. tauto.
Qed.

Lemma touched_snoc_eq now hp seen p h :
  hp !! p = Some h →
  touched now hp (seen ++ [p]) p
  = Some (if negb (timed_out now h) && ping_due now h then Ping h else h).
Proof.
  intros Hh. unfold touched. rewrite Hh.
  rewrite bool_decide_eq_true_2
    by (apply elem_of_app; right; by apply list_elem_of_singleton).
  simpl. by destruct (negb (timed_out now h) && ping_due now h).
Qed.

Lemma touched_address now hp seen p h' :
  (∀ h, hostAddress (Ping h) = hostAddress h) →
  touched now hp seen p = Some h' →
  ∃ h, hp !! p = Some h ∧ hostAddress h' = hostAddress h.
Proof.
  intros HPing. unfold touched. destruct (hp !! p) as [h|]; [| done].
  destruct (_ && _); intros [= <-]; eauto.
Qed.

Section Pass.

Variable now : Z.
Variable n0 : HostTable.
Hypothesis hosts_NoDup : NoDup (hosts n0).
Hypothesis hosts_allocated : ∀ p, p ∈ hosts n0 → is_Some (heap n0 !! p).

(** What holds of the table and of [hostCount] when the loop is at [i]. *)
Definition pass_inv (i : nat) (st : HostTable * nat) : Prop :=
  length (hosts st.1) = length (hosts n0)
  ∧ (st.2 ≤ i)%nat
  ∧ take st.2 (hosts st.1)
    = List.filter (alive now (heap n0)) (take i (hosts n0))
  ∧ drop i (hosts st.1) = drop i (hosts n0)
  ∧ (∀ p, heap st.1 !! p = touched now (heap n0) (take i (hosts n0)) p)
  ∧ hostsByAddr st.1
    = purged now (heap n0) (take i (hosts n0)) (hostsByAddr n0).

Lemma cleanup_step_inv i st :
  (i < length (hosts n0))%nat → pass_inv i st →
  ∃ st', cleanup_step now st i = Some st' ∧ pass_inv (S i) st'.
Proof.
  destruct st as [n c]. intros Hi (Hlen & Hc & Htake & Hdrop & Hheap & Hmap).
  simpl in *.
  destruct (lookup_lt_is_Some_2 (hosts n0) i Hi) as [p Hp].
  assert (Hnp : hosts n !! i = Some p).
  { pose proof (lookup_drop (hosts n) i 0) as E.
    rewrite Hdrop, lookup_drop, !Nat.add_0_r in E. congruence. }
  assert (Hfresh : p ∉ take i (hosts n0)).
  { intros (j & Hj & Hlt)%elem_of_take.
    pose proof (NoDup_lookup _ _ _ _ hosts_NoDup Hj Hp). lia. }
  destruct (hosts_allocated p (list_elem_of_lookup_2 _ _ _ Hp)) as [h Hh].
  assert (Hnh : heap n !! p = Some h).
  { rewrite Hheap. unfold touched. rewrite Hh.
    by rewrite bool_decide_eq_false_2. }
  assert (Halive : alive now (heap n0) p = negb (timed_out now h)).
  { unfold alive. by rewrite Hh. }
  assert (Hdrop' : drop (S i) (hosts n) = drop (S i) (hosts n0)).
  { rewrite (drop_S _ _ _ Hnp), (drop_S _ _ _ Hp) in Hdrop. congruence. }
  unfold cleanup_step. rewrite Hnp. simpl. rewrite Hnh. simpl.
  unfold pass_inv. rewrite (take_S_r _ _ _ Hp), List.filter_app. simpl.
  rewrite Halive. unfold purged. rewrite foldl_snoc. fold (purged now (heap n0)).
  unfold purge_one at 1 2. rewrite Hh.
  destruct (timed_out now h) eqn:Hto; simpl.
  - eexists. split; [done |]. simpl.
    split; [done |]. split; [lia |].
    split; [by rewrite app_nil_r |]. split; [done |]. split; [| by rewrite Hmap].
    intros q. destruct (decide (q = p)) as [->|Hne].
    + rewrite (touched_snoc_eq _ _ _ _ _ Hh), Hto. done.
    + by rewrite touched_snoc_ne.
  - assert (Hcl : (c < length (hosts n))%nat) by lia.
    eexists. split; [done |]. simpl.
    split; [by rewrite length_insert |]. split; [lia |].
    split.
    { rewrite (take_S_r _ _ p) by (by apply list_lookup_insert_eq).
      rewrite take_insert_ge by lia. by rewrite Htake. }
    split; [by rewrite drop_insert_lt by lia |]. split; [| done].
    intros q. destruct (decide (q = p)) as [->|Hne].
    + rewrite (touched_snoc_eq _ _ _ _ _ Hh), Hto. simpl.
      destruct (ping_due now h); [by rewrite lookup_insert_eq | done].
    + rewrite touched_snoc_ne by done.
      destruct (ping_due now h); [| done]. by rewrite lookup_insert_ne.
Qed.

Lemma cleanup_loop_inv k : ∀ i st,
  (i + k = length (hosts n0))%nat → pass_inv i st →
  ∃ st', cleanup_loop now (seq i k) st = Some st'
    ∧ pass_inv (length (hosts n0)) st'.
Proof.
  induction k as [|k IH]; intros i st Hik Hinv.
  - exists st. split; [done |]. by replace (length (hosts n0)) with i by lia.
  - destruct (cleanup_step_inv i st) as (st1 & Hstep & Hinv1); [lia | done |].
    destruct (IH (S i) st1) as (st' & Hloop & Hinv'); [lia | done |].
    exists st'. split; [| done]. simpl. by rewrite Hstep.
Qed.

Lemma cleanup_pass_result :
  ∃ n', cleanup_pass n0 now = Some n'
    ∧ hosts n' = List.filter (alive now (heap n0)) (hosts n0)
    ∧ (∀ p, heap n' !! p = touched now (heap n0) (hosts n0) p)
    ∧ hostsByAddr n' = purged now (heap n0) (hosts n0) (hostsByAddr n0).
Proof.
  destruct (cleanup_loop_inv (length (hosts n0)) O (n0, O))
    as ([n c] & Hloop & Hlen & Hc & Htake & _ & Hheap & Hmap); [done | |].
  { repeat split; simpl; try done. intros p. by rewrite touched_nil. }
  simpl in *. rewrite firstn_all in Htake, Hheap, Hmap.
  unfold cleanup_pass. rewrite Hloop. simpl. eexists. split; [done |]. done.
Qed.

End Pass.

(** Whether a pass at [now] deletes the key [k]: some peer of the slice has
    timed out and has [k] as its address. *)
Definition purges (now : Z) (hp : gmap nat Host) (seen : list nat)
    (k : packedAddress) : bool :=
  existsb (λ p, match hp !! p with
                | Some h => timed_out now h && bool_decide (hostAddress h = k)
                | None => false
                end) seen.

Lemma purged_lookup now hp seen : ∀ m k,
  purged now hp seen m !! k = if purges now hp seen k then None else m !! k.
Proof.
  induction seen as [|p seen IH]; intros m k; [done |].
  change (purged now hp (p :: seen) m)
    with (purged now hp seen (purge_one now hp m p)).
  rewrite IH. unfold purge_one, purges. simpl. fold (purges now hp seen k). destruct (purges now hp seen k).
  { by rewrite orb_true_r. }
  rewrite orb_false_r. destruct (hp !! p) as [h|]; [| done].
  destruct (timed_out now h); [| done]. simpl.
  destruct (decide (hostAddress h = k)) as [<-|Hne].
  - by rewrite bool_decide_eq_true_2, lookup_delete_eq.
  - by rewrite bool_decide_eq_false_2, lookup_delete_ne.
Qed.

Lemma purges_consistent now n k p :
  consistent n → hostsByAddr n !! k = Some p →
  purges now (heap n) (hosts n) k = negb (alive now (heap n) p).
Proof.
  intros (Hnd & Hin & Hmap) Hk.
  destruct (Hmap k p Hk) as (Hp & h & Hh & Hkey).
  unfold alive. rewrite Hh, negb_involutive.
  destruct (timed_out now h) eqn:Hto.
  - apply existsb_exists. exists p. split; [by apply list_elem_of_In |].
    by rewrite Hh, Hto, bool_decide_eq_true_2.
  - apply not_true_is_false. intros (q & Hq & Htest)%existsb_exists.
    apply list_elem_of_In in Hq. destruct (Hin q Hq) as (hq & Hhq & Hkq).
    rewrite Hhq in Htest. apply andb_true_iff in Htest as [Htq Haddr].
    apply bool_decide_eq_true_1 in Haddr. rewrite Haddr, Hk in Hkq.
    injection Hkq as ->. congruence.
Qed.

Lemma cleanup_pass_map now n n' k :
  consistent n →
  hostsByAddr n' = purged now (heap n) (hosts n) (hostsByAddr n) →
  hostsByAddr n' !! k
  = p ← hostsByAddr n !! k; if alive now (heap n) p then Some p else None.
Proof.
  intros Hn ->. rewrite purged_lookup.
  destruct (hostsByAddr n !! k) as [p|] eqn:Hk; simpl.
  - rewrite (purges_consistent _ _ _ _ Hn Hk).
    by destruct (alive now (heap n) p).
  - by destruct (purges now (heap n) (hosts n) k).
Qed.

Lemma consistent_pass now n n' :
  (∀ h, hostAddress (Ping h) = hostAddress h) →
  consistent n →
  hosts n' = List.filter (alive now (heap n)) (hosts n) →
  (∀ p, heap n' !! p = touched now (heap n) (hosts n) p) →
  hostsByAddr n' = purged now (heap n) (hosts n) (hostsByAddr n) →
  consistent n'.
Proof.
  intros HPing Hn Hhosts Hheap Hmap.
  pose proof (λ k, cleanup_pass_map now n n' k Hn Hmap) as Hlook.
  destruct Hn as (Hnd & Hin & Hm).
  assert (Hmem : ∀ p, p ∈ hosts n' ↔ p ∈ hosts n ∧ alive now (heap n) p = true).
  { intros p. rewrite Hhosts, !list_elem_of_In. apply filter_In. }
  split; [| split].
  - rewrite Hhosts. by apply NoDup_ListNoDup, List.NoDup_filter, NoDup_ListNoDup.
  - intros p [Hp Hal]%Hmem. destruct (Hin p Hp) as (h & Hh & Hk).
    destruct (touched now (heap n) (hosts n) p) as [h'|] eqn:Ht.
    2: { unfold touched in Ht. rewrite Hh in Ht. by destruct (_ && _). }
    exists h'. split; [by rewrite Hheap |].
    destruct (touched_address _ _ _ _ _ HPing Ht) as (h1 & Hh1 & ->).
    assert (h1 = h) as -> by congruence.
    by rewrite Hlook, Hk; simpl; rewrite Hal.
  - intros k p. rewrite Hlook.
    destruct (hostsByAddr n !! k) as [q|] eqn:Hk; [| done]. simpl.
    destruct (alive now (heap n) q) eqn:Hal; [| done]. intros [= <-].
    destruct (Hm k q Hk) as (Hq & h & Hh & Hkey).
    split; [by apply Hmem |].
    destruct (touched now (heap n) (hosts n) q) as [h'|] eqn:Ht.
    2: { unfold touched in Ht. rewrite Hh in Ht. by destruct (_ && _). }
    exists h'. split; [by rewrite Hheap |].
    destruct (touched_address _ _ _ _ _ HPing Ht) as (h1 & Hh1 & ->).
    congruence.
Qed.

Lemma consistent_pass_ready n :
  consistent n →
  NoDup (hosts n) ∧ ∀ p, p ∈ hosts n → is_Some (heap n !! p).
Proof.
  intros (Hnd & Hin & _). split; [done |].
  intros p Hp. destruct (Hin p Hp) as (h & Hh & _). eauto.
Qed.

(** X6. One pass of the cleanup thread over a consistent table never
    dereferences nil; it keeps, in their order, exactly the peers that have
    not timed out, and the map loses exactly the addresses of the others. *)
Theorem cleanup_pass_keeps_the_live (n : HostTable) (now : Z) :
  consistent n →
  ∃ n', cleanup_pass n now = Some n'
    ∧ hosts n' = List.filter (alive now (heap n)) (hosts n)
    ∧ ∀ k, hostsByAddr n' !! k
           = p ← hostsByAddr n !! k;
             if alive now (heap n) p then Some p else None.
Proof.
  intros Hn. destruct (consistent_pass_ready n Hn) as [Hnd Halloc].
  destruct (cleanup_pass_result now n Hnd Halloc)
    as (n' & Hrun & Hhosts & Hheap & Hmap).
  exists n'. split; [done |]. split; [done |].
  intros k. by apply cleanup_pass_map.
Qed.

(** X7. The pass pings exactly the peers it keeps and that were last sent to
    more than a third of the timeout ago; every other [Host] object, also one
    that is dropped, is left as it was. *)
Theorem cleanup_pass_pings_the_quiet (n : HostTable) (now : Z) (p : nat)
    (h : Host) :
  consistent n → heap n !! p = Some h →
  ∃ n', cleanup_pass n now = Some n'
    ∧ heap n' !! p
      = Some (if bool_decide (p ∈ hosts n) && negb (timed_out now h)
                 && ping_due now h
              then Ping h else h).
Proof.
  intros Hn Hh. destruct (consistent_pass_ready n Hn) as [Hnd Halloc].
  destruct (cleanup_pass_result now n Hnd Halloc)
    as (n' & Hrun & Hhosts & Hheap & Hmap).
  exists n'. split; [done |]. rewrite Hheap. unfold touched. rewrite Hh.
  by destruct (_ && _).
Qed.

(** X8. The pass keeps the slice and the map in step, as long as a ping does
    not change the address of the peer it is sent to. *)
Theorem cleanup_pass_consistent (n : HostTable) (now : Z) :
  (∀ h, hostAddress (Ping h) = hostAddress h) →
  consistent n →
  ∃ n', cleanup_pass n now = Some n' ∧ consistent n'.
Proof.
  intros HPing Hn. destruct (consistent_pass_ready n Hn) as [Hnd Halloc].
  destruct (cleanup_pass_result now n Hnd Halloc)
    as (n' & Hrun & Hhosts & Hheap & Hmap).
  exists n'. split; [done |]. by apply (consistent_pass now n).
Qed.

(** X9. A peer that [GetHost] has just created, and from which nothing has
    been received, does not survive the next pass once the clock is past the
    timeout: its address is unknown again. *)
Theorem unheard_host_is_dropped (n : HostTable) (ip : bytes) (port : Z)
    (zone : string) (timeMs now : Z) :
  consistent n →
  hostsByAddr n !! packedAddress_set ip port zone = None →
  0 ≤ now < 2 ^ 64 → ProtoHostTimeout < now →
  ∃ n', cleanup_pass (GetHost n ip port zone true timeMs).1 now = Some n'
    ∧ hosts n' = List.filter (alive now (heap n)) (hosts n)
    ∧ ∀ timeMs', (GetHost n' ip port zone false timeMs').2 = None.
Proof.
  intros Hn Hk Hnow Hlate.
  pose proof (GetHost_consistent n ip port zone true timeMs Hn) as Hn1.
  destruct (consistent_pass_ready _ Hn1) as [Hnd Halloc].
  destruct (cleanup_pass_result now _ Hnd Halloc)
    as (n' & Hrun & Hhosts & Hheap & Hmap).
  exists n'. split; [done |].
  pose proof (cleanup_pass_map now _ n' (packedAddress_set ip port zone)
                Hn1 Hmap) as Hlook.
  revert Hhosts Hlook. unfold GetHost, GetHost_found, register. rewrite Hk. simpl.
  set (q := fresh (dom (heap n))). set (key := packedAddress_set ip port zone).
  assert (Hq : q ∉ dom (heap n)) by apply is_fresh.
  rewrite lookup_insert_eq. simpl.
  assert (Hdead : ∀ hp, alive now (<[q := {| hostAddress := key;
                         FirstReceive := timeMs; LastReceive := 0;
                         LastSend := 0;
                         RemoteAddress := make_UDPAddr ip port zone;
                         Latency := -1 |}]> hp) q = false).
  { intros hp. unfold alive. rewrite lookup_insert_eq. unfold timed_out.
    cbn [LastReceive]. unfold uint64. rewrite Z.sub_0_r, Z.mod_small by lia. apply negb_false_iff.
    by apply Z.ltb_lt. }
  rewrite Hdead. intros Hhosts Hlook. split.
  - rewrite Hhosts, List.filter_app. simpl. rewrite Hdead, app_nil_r.
    apply List.filter_ext_in. intros p Hp%list_elem_of_In.
    unfold alive. rewrite lookup_insert_ne; [done |].
    intros <-. by apply Hq, consistent_allocated.
  - intros _. by rewrite Hlook.
Qed.

(** *** Try *)

(** [h.Connected()] is declared elsewhere. *)
Variable Connected : Host → bool.

(** [func (n *Node) Try(ip []byte, port int, zone string)]. *)
Definition Try (n : HostTable) (ip : bytes) (port : Z) (zone : string)
    (timeMs : Z) : option HostTable :=
  let got := GetHost n ip port zone true timeMs in
  p ← got.2;
  h ← heap got.1 !! p;
  Some (if Connected h then got.1
        else {| heap := <[p := Ping h]> (heap got.1); hosts := hosts got.1;
                hostsByAddr := hostsByAddr got.1 |}).

Lemma consistent_ping n p h :
  (∀ h, hostAddress (Ping h) = hostAddress h) →
  consistent n → heap n !! p = Some h →
  consistent {| heap := <[p := Ping h]> (heap n); hosts := hosts n;
                hostsByAddr := hostsByAddr n |}.
Proof.
  intros HPing (Hnd & Hin & Hmap) Hh. split; [done |]. split; simpl.
  - intros q Hq. destruct (Hin q Hq) as (hq & Hhq & Hk).
    destruct (decide (q = p)) as [->|Hne].
    + exists (Ping h). rewrite lookup_insert_eq. split; [done |].
      rewrite HPing. congruence.
    + exists hq. by rewrite lookup_insert_ne.
  - intros k q Hk. destruct (Hmap k q Hk) as (Hq & hq & Hhq & Hkey).
    split; [done |]. destruct (decide (q = p)) as [->|Hne].
    + exists (Ping h). rewrite lookup_insert_eq. split; [done |].
      rewrite HPing. congruence.
    + exists hq. by rewrite lookup_insert_ne.
Qed.

Lemma Try_result (n : HostTable) (ip : bytes) (port : Z) (zone : string)
    (timeMs : Z) :
  (∀ h, hostAddress (Ping h) = hostAddress h) →
  consistent n →
  ∃ n', Try n ip port zone timeMs = Some n'
    ∧ consistent n'
    ∧ is_Some (hostsByAddr n' !! packedAddress_set ip port zone)
    ∧ (∀ k, k ≠ packedAddress_set ip port zone →
         hostsByAddr n' !! k = hostsByAddr n !! k)
    ∧ ∃ new, hosts n' = hosts n ++ new ∧ (length new ≤ 1)%nat.
Proof.
  intros HPing Hn.
  pose proof (GetHost_consistent n ip port zone true timeMs Hn) as Hn1.
  unfold Try. revert Hn1. unfold GetHost, GetHost_found, register.
  set (key := packedAddress_set ip port zone).
  destruct (hostsByAddr n !! key) as [p|] eqn:Hk; simpl; intros Hn1.
  - destruct Hn as (Hnd & Hin & Hmap).
    destruct (Hmap key p Hk) as (Hp & h & Hh & Hkey). rewrite Hh. simpl.
    eexists. split; [done |].
    destruct (Connected h); simpl.
    + split; [done |]. split; [by rewrite Hk |]. split; [done |].
      exists []. split; [by rewrite app_nil_r | simpl; lia].
    + split; [by apply consistent_ping |]. split; [by rewrite Hk |].
      split; [done |]. exists []. split; [by rewrite app_nil_r | simpl; lia].
  - rewrite lookup_insert_eq. simpl. eexists. split; [done |].
    match goal with |- context [Connected ?x] => destruct (Connected x) end;
      simpl.
    + split; [done |]. split; [by rewrite lookup_insert_eq |].
      split; [intros k Hne; by rewrite lookup_insert_ne |].
      eexists. split; [done |]. simpl. lia.
    + split.
      { apply (consistent_ping _ _ _ HPing Hn1). simpl.
        by rewrite lookup_insert_eq. }
      split; [by rewrite lookup_insert_eq |].
      split; [intros k Hne; by rewrite lookup_insert_ne |].
      eexists. split; [done |]. simpl. lia.
Qed.

(** X10. [Try] on a consistent table never dereferences nil; afterwards the
    address resolves, every other address resolves as before, and the slice
    has at most the one peer more. *)
Theorem Try_registers (n : HostTable) (ip : bytes) (port : Z) (zone : string)
    (timeMs : Z) :
  (∀ h, hostAddress (Ping h) = hostAddress h) →
  consistent n →
  ∃ n', Try n ip port zone timeMs = Some n'
    ∧ is_Some (hostsByAddr n' !! packedAddress_set ip port zone)
    ∧ (∀ k, k ≠ packedAddress_set ip port zone →
         hostsByAddr n' !! k = hostsByAddr n !! k)
    ∧ ∃ new, hosts n' = hosts n ++ new ∧ (length new ≤ 1)%nat.
Proof.
  intros HPing Hn.
  destruct (Try_result n ip port zone timeMs HPing Hn)
    as (n' & Hrun & _ & Hrest).
  by exists n'.
Qed.

(** *** The table over the life of a node *)

(** The tables a node goes through: [NewNode] makes the slice and the map
    empty, and from then on node.go changes them in [GetHost], in [Try] and
    in the passes of the cleanup thread, each step on its own. *)
Inductive reachable : HostTable → Prop :=
  | reachable_NewNode : reachable empty_table
  | reachable_GetHost n ip port zone create timeMs :
      reachable n → reachable (GetHost n ip port zone create timeMs).1
  | reachable_Try n ip port zone timeMs n' :
      reachable n → Try n ip port zone timeMs = Some n' → reachable n'
  | reachable_cleanup n now n' :
      reachable n → cleanup_pass n now = Some n' → reachable n'.

(** X11. As long as no two threads are in [GetHost] at once and a ping does
    not change the address of its peer, the slice and the map of a node always
    describe the same peers, and neither a cleanup pass nor [Try] ever
    dereferences nil. *)
Theorem node_table_invariant (n : HostTable) :
  (∀ h, hostAddress (Ping h) = hostAddress h) →
  reachable n →
  consistent n
  ∧ (∀ now, is_Some (cleanup_pass n now))
  ∧ ∀ ip port zone timeMs, is_Some (Try n ip port zone timeMs).
Proof.
  intros HPing Hreach.
  assert (Hn : consistent n).
  { induction Hreach as [|n ip port zone create t _ IH
                          |n ip port zone t n' _ IH Hrun
                          |n now n' _ IH Hrun].
    - apply consistent_empty.
    - by apply GetHost_consistent.
    - destruct (Try_result n ip port zone t HPing IH) as (n1 & Hrun1 & Hn1 & _).
      congruence.
    - destruct (consistent_pass_ready n IH) as [Hnd Halloc].
      destruct (cleanup_pass_result now n Hnd Halloc)
        as (n1 & Hrun1 & Hhosts & Hheap & Hmap).
      assert (n1 = n') as -> by congruence.
      by apply (consistent_pass now n). }
  split; [done |]. split.
  - intros now. destruct (consistent_pass_ready n Hn) as [Hnd Halloc].
    destruct (cleanup_pass_result now n Hnd Halloc) as (n1 & Hrun1 & _). eauto.
  - intros ip port zone t.
    destruct (Try_result n ip port zone t HPing Hn) as (n1 & Hrun1 & _). eauto.
Qed.

(** X12. Two threads that ask [GetHost] for the same unknown address at once
    each get a [Host] of their own: the slice holds both, the map only the
    second, and the slice and the map no longer describe the same peers. *)
Theorem GetHost_at_once_registers_twice (n : HostTable) (ip : bytes)
    (port : Z) (zone : string) (timeA timeB : Z) :
  hostsByAddr n !! packedAddress_set ip port zone = None →
  ∃ n' pA pB,
    GetHost_at_once n ip port zone timeA timeB = (n', Some pA, Some pB)
    ∧ pA ≠ pB
    ∧ hosts n' = hosts n ++ [pA; pB]
    ∧ hostsByAddr n' !! packedAddress_set ip port zone = Some pB
    ∧ (∃ h, heap n' !! pA = Some h
            ∧ hostAddress h = packedAddress_set ip port zone)
    ∧ ¬ consistent n'.
Proof.
  clear ProtoHostTimeout Ping Connected.
  intros Hk. unfold GetHost_at_once. rewrite Hk.
  unfold GetHost_found, register. simpl.
  set (key := packedAddress_set ip port zone).
  set (pA := fresh (dom (heap n))).
  set (hA := {| hostAddress := key; FirstReceive := timeA; LastReceive := 0;
                LastSend := 0; RemoteAddress := make_UDPAddr ip port zone;
                Latency := -1 |}).
  set (pB := fresh (dom (<[pA := hA]> (heap n)))).
  assert (Hne : pA ≠ pB).
  { intros Heq. apply (is_fresh (dom (<[pA := hA]> (heap n)))).
    fold pB. rewrite <- Heq. apply elem_of_dom. rewrite lookup_insert_eq. eauto. }
  assert (HA : <[pB := {| hostAddress := key; FirstReceive := timeB;
                          LastReceive := 0; LastSend := 0;
                          RemoteAddress := make_UDPAddr ip port zone;
                          Latency := -1 |}]> (<[pA := hA]> (heap n)) !! pA
               = Some hA).
  { rewrite lookup_insert_ne by done. apply lookup_insert_eq. }
  eexists _, pA, pB. split; [done |]. split; [done |]. simpl.
  split; [by rewrite <- app_assoc |].
  split; [apply lookup_insert_eq |].
  split; [by exists hA |].
  intros (_ & Hin & _). simpl in Hin.
  destruct (Hin pA) as (h & Hh & Hlook).
  { rewrite !elem_of_app, !list_elem_of_singleton. tauto. }
  rewrite HA in Hh. injection Hh as <-. simpl in Hlook.
  rewrite lookup_insert_eq in Hlook. congruence.
Qed.

End Hosts.

(** An instance to run the table on: an address is the triple it is made
    from, a ping stamps [LastSend], a peer is connected once something has
    been received from it. *)
Module Demo.

Abbreviation address := (bytes * Z * string)%type.
Abbreviation host := (@Host address address).
Abbreviation table := (@HostTable address address _ _).

Definition packedAddress_set (ip : bytes) (port : Z) (zone : string)
    : address := (ip, port, zone).

Definition ProtoHostTimeout : Z := 60000.

Definition Ping (h : host) : host :=
  {| hostAddress := hostAddress h;
     FirstReceive := FirstReceive h;
     LastReceive := LastReceive h;
     LastSend := 61500;
     RemoteAddress := RemoteAddress h;
     Latency := Latency h |}.

Definition Connected (h : host) : bool := 0 <? LastReceive h.

Abbreviation GetHost := (GetHost packedAddress_set packedAddress_set).
Abbreviation GetHost_at_once :=
  (GetHost_at_once packedAddress_set packedAddress_set).
Abbreviation cleanup_pass := (cleanup_pass ProtoHostTimeout Ping).
Abbreviation Try := (Try packedAddress_set packedAddress_set Ping Connected).
Abbreviation reachable :=
  (reachable packedAddress_set packedAddress_set ProtoHostTimeout Ping
     Connected).
Abbreviation alive := (alive ProtoHostTimeout).

Definition no_peer : table := empty_table.

Definition one_peer : table :=
  (GetHost no_peer [10; 0; 0; 1] 9993 "" true 1000).1.

Definition the_peer : host :=
  {| hostAddress := ([10; 0; 0; 1], 9993, ""%string); FirstReceive := 1000;
     LastReceive := 0; LastSend := 0;
     RemoteAddress := ([10; 0; 0; 1], 9993, ""%string); Latency := -1 |}.

Lemma Ping_keeps_address h : hostAddress (Ping h) = hostAddress h.
Proof. done. Qed.

Lemma no_peer_unknown ip port zone :
  hostsByAddr no_peer !! packedAddress_set ip port zone = None.
Proof. apply lookup_empty. Qed.

Lemma one_peer_consistent : consistent one_peer.
Proof. apply GetHost_consistent, consistent_empty. Qed.

Lemma one_peer_reachable : reachable one_peer.
Proof. apply reachable_GetHost, reachable_NewNode. Qed.

Lemma one_peer_heap :
  heap one_peer !! fresh (dom (heap no_peer)) = Some the_peer.
Proof.
  unfold one_peer, NodeHosts.GetHost. rewrite no_peer_unknown.
  apply lookup_insert_eq.
Qed.

End Demo.

Lemma cleanup_pass_keeps_the_live_witness :
  ∃ n', Demo.cleanup_pass Demo.one_peer 70000 = Some n'
    ∧ hosts n'
      = List.filter (Demo.alive 70000 (heap Demo.one_peer))
          (hosts Demo.one_peer)
    ∧ ∀ k, hostsByAddr n' !! k
           = p ← hostsByAddr Demo.one_peer !! k;
             if Demo.alive 70000 (heap Demo.one_peer) p
             then Some p else None.
Proof.
  exact (cleanup_pass_keeps_the_live Demo.ProtoHostTimeout Demo.Ping
           Demo.one_peer 70000 Demo.one_peer_consistent).
Defined.

Lemma cleanup_pass_pings_the_quiet_witness :
  ∃ n', Demo.cleanup_pass Demo.one_peer 30000 = Some n'
    ∧ is_Some (heap n' !! fresh (dom (heap Demo.no_peer))).
Proof.
  destruct (cleanup_pass_pings_the_quiet Demo.ProtoHostTimeout Demo.Ping
              Demo.one_peer 30000 _ _
              Demo.one_peer_consistent Demo.one_peer_heap)
    as (n' & Hrun & Hheap).
  exists n'. split; [exact Hrun |]. rewrite Hheap. eauto.
Defined.

Lemma cleanup_pass_consistent_witness :
  ∃ n', Demo.cleanup_pass Demo.one_peer 70000 = Some n' ∧ consistent n'.
Proof.
  exact (cleanup_pass_consistent Demo.ProtoHostTimeout Demo.Ping
           Demo.one_peer 70000 Demo.Ping_keeps_address
           Demo.one_peer_consistent).
Defined.

Lemma unheard_host_is_dropped_witness :
  ∃ n',
    Demo.cleanup_pass
      (Demo.GetHost Demo.no_peer [10; 0; 0; 1] 9993 "" true 1000).1 70000
    = Some n'
    ∧ hosts n'
      = List.filter (Demo.alive 70000 (heap Demo.no_peer))
          (hosts Demo.no_peer)
    ∧ ∀ timeMs',
        (Demo.GetHost n' [10; 0; 0; 1] 9993 "" false timeMs').2 = None.
Proof.
  apply (unheard_host_is_dropped Demo.packedAddress_set
           Demo.packedAddress_set Demo.ProtoHostTimeout Demo.Ping Demo.no_peer
           [10; 0; 0; 1] 9993 "" 1000 70000).
  - apply consistent_empty.
  - apply Demo.no_peer_unknown.
  - lia.
  - reflexivity.
Defined.

Lemma Try_registers_witness :
  ∃ n', Demo.Try Demo.one_peer [10; 0; 0; 2] 9993 "" 2000 = Some n'
    ∧ is_Some (hostsByAddr n'
                 !! Demo.packedAddress_set [10; 0; 0; 2] 9993 "")
    ∧ (∀ k, k ≠ Demo.packedAddress_set [10; 0; 0; 2] 9993 "" →
         hostsByAddr n' !! k = hostsByAddr Demo.one_peer !! k)
    ∧ ∃ new, hosts n' = hosts Demo.one_peer ++ new ∧ (length new ≤ 1)%nat.
Proof.
  exact (Try_registers Demo.packedAddress_set Demo.packedAddress_set
           Demo.Ping Demo.Connected Demo.one_peer
           [10; 0; 0; 2] 9993 "" 2000 Demo.Ping_keeps_address
           Demo.one_peer_consistent).
Defined.

Lemma node_table_invariant_witness :
  consistent Demo.one_peer
  ∧ (∀ now, is_Some (Demo.cleanup_pass Demo.one_peer now))
  ∧ ∀ ip port zone timeMs,
      is_Some (Demo.Try Demo.one_peer ip port zone timeMs).
Proof.
  exact (node_table_invariant Demo.packedAddress_set Demo.packedAddress_set
           Demo.ProtoHostTimeout Demo.Ping Demo.Connected Demo.one_peer
           Demo.Ping_keeps_address Demo.one_peer_reachable).
Defined.

Lemma GetHost_at_once_registers_twice_witness :
  ∃ n' pA pB,
    Demo.GetHost_at_once Demo.no_peer [10; 0; 0; 1] 9993 "" 1000 1001
    = (n', Some pA, Some pB)
    ∧ pA ≠ pB
    ∧ hosts n' = hosts Demo.no_peer ++ [pA; pB]
    ∧ hostsByAddr n' !! Demo.packedAddress_set [10; 0; 0; 1] 9993 ""
      = Some pB
    ∧ (∃ h, heap n' !! pA = Some h
            ∧ hostAddress h = Demo.packedAddress_set [10; 0; 0; 1] 9993 "")
    ∧ ¬ consistent n'.
Proof.
  exact (GetHost_at_once_registers_twice Demo.packedAddress_set
           Demo.packedAddress_set Demo.no_peer [10; 0; 0; 1] 9993 "" 1000 1001
           (Demo.no_peer_unknown [10; 0; 0; 1] 9993 "")).
Defined.

End NodeHosts.

(* ===================================================================== *)
(** * genesis.go: [Update] over the life of a data store *)
(* ===================================================================== *)

Module GenesisLaws.

Import Genesis.

(** Two parameter sets with the same fields are the same. *)
Lemma params_ext gp gp' :
  initialized gp = initialized gp' → (∀ f, get f gp = get f gp') → gp = gp'.
Proof.
  intros Hi Hg.
  generalize (Hg FName) (Hg FContact) (Hg FComment)
    (Hg FRootCertificateAuthorities) (Hg FCertificateRequired)
    (Hg FWorkRequired) (Hg FLinkKey) (Hg FTimestampFloor)
    (Hg FRecordMinLinks) (Hg FRecordMaxValueSize) (Hg FRecordMaxSize)
    (Hg FRecordMaxForwardTimeDrift) (Hg FAmendableFields).
  destruct gp, gp'. simpl in *. intros. by simplify_eq.
Qed.

Section Laws.

Variable json_Unmarshal_fields : bytes → result (list (string * bytes)).
Variable json_Unmarshal_params : bytes → result GenesisParameters.
Variable strings_EqualFold : string → string → bool.
Variable strings_ToLower : string → string.

Abbreviation Update_with fields :=
  (Update fields json_Unmarshal_params strings_EqualFold strings_ToLower).
Abbreviation Update := (Update_with json_Unmarshal_fields).
Abbreviation written := (written strings_EqualFold strings_ToLower).
Abbreviation update_key := (update_key strings_EqualFold strings_ToLower).

(** A run of calls on the same receiver, one per document, as the records of
    the genesis owner come in. *)
Definition Updates (gp : GenesisParameters) (docs : list bytes)
    : GenesisParameters :=
  foldl (λ gp jsonValue, (Update gp jsonValue).1) gp docs.

(** No entry of the amendable list admits a key that selects [f]. *)
Definition locked (f : field) (gp : GenesisParameters) : Prop :=
  ∀ af k, af ∈ AmendableFields gp → strings_EqualFold af k = true →
          field_of_key (strings_ToLower k) ≠ Some f.

Lemma Update_decoded fields gp jsonValue updFields ngp :
  jsonValue ≠ [] →
  fields jsonValue = inr updFields →
  json_Unmarshal_params jsonValue = inr ngp →
  Update_with fields gp jsonValue
  = (set_initialized
       (foldl (update_key (AmendableFields gp) ngp) gp updFields.*1), None).
Proof.
  intros Hne Hfields Hparams. unfold Genesis.Update.
  destruct jsonValue; [done |]. simpl. rewrite Hfields, Hparams.
  by rewrite foldl_keys.
Qed.

Lemma get_decoded gp ngp keys f :
  get f (set_initialized (foldl (update_key (AmendableFields gp) ngp) gp keys))
  = if written (initialized gp) (AmendableFields gp) keys f
    then get f ngp else get f gp.
Proof.
  rewrite get_set_initialized.
  apply (update_loop strings_EqualFold strings_ToLower
           (AmendableFields gp) ngp keys gp).
Qed.

(** The ways a call can go. *)
Lemma Update_cases fields gp jsonValue :
  (jsonValue = [] ∧ Update_with fields gp jsonValue = (gp, None))
  ∨ (jsonValue ≠ [] ∧ ∃ err, Update_with fields gp jsonValue = (gp, Some err)
       ∧ (fields jsonValue = inl err
          ∨ json_Unmarshal_params jsonValue = inl err))
  ∨ (jsonValue ≠ [] ∧ ∃ updFields ngp,
       fields jsonValue = inr updFields
       ∧ json_Unmarshal_params jsonValue = inr ngp
       ∧ Update_with fields gp jsonValue
         = (set_initialized
              (foldl (update_key (AmendableFields gp) ngp) gp updFields.*1),
            None)).
Proof.
  destruct (decide (jsonValue = [])) as [->|Hne]; [by left |]. right.
  destruct (fields jsonValue) as [err|updFields] eqn:Hfields.
  - left. split; [done |]. exists err. split; [| by left].
    unfold Genesis.Update. destruct jsonValue; [done |]. simpl.
    by rewrite Hfields.
  - destruct (json_Unmarshal_params jsonValue) as [err|ngp] eqn:Hparams.
    + left. split; [done |]. exists err. split; [| by right].
      unfold Genesis.Update. destruct jsonValue; [done |]. simpl.
      by rewrite Hfields, Hparams.
    + right. split; [done |]. exists updFields, ngp.
      split; [done |]. split; [done |]. by apply Update_decoded.
Qed.

Lemma written_admitted init afields keys f :
  written init afields keys f = true →
  ∃ k, k ∈ keys ∧ field_of_key (strings_ToLower k) = Some f
       ∧ (init = true → ∃ af, af ∈ afields ∧ strings_EqualFold af k = true).
Proof.
  unfold Genesis.written. intros (k & Hk & Hw)%existsb_exists.
  apply andb_true_iff in Hw as [Hadm Hsel].
  apply bool_decide_eq_true_1 in Hsel. apply list_elem_of_In in Hk.
  exists k. split; [done |]. split; [done |]. intros ->.
  unfold admitted_key in Hadm. simpl in Hadm.
  apply existsb_exists in Hadm as (af & Haf & Hfold).
  exists af. by rewrite list_elem_of_In.
Qed.

Lemma written_first afields keys f k :
  k ∈ keys → field_of_key (strings_ToLower k) = Some f →
  written false afields keys f = true.
Proof.
  intros Hk Hsel. unfold Genesis.written. apply existsb_exists. exists k.
  split; [by apply list_elem_of_In |]. by rewrite bool_decide_eq_true_2.
Qed.

Lemma Update_locked gp jsonValue f :
  initialized gp = true → locked f gp →
  get f (Update gp jsonValue).1 = get f gp.
Proof.
  intros Hinit Hlock.
  destruct (Update_cases json_Unmarshal_fields gp jsonValue)
    as [[_ ->]|[(_ & err & -> & _)|(_ & kvs & ngp & _ & _ & ->)]];
    [done | done |]. simpl.
  rewrite get_decoded, Hinit.
  destruct (written true _ _ f) eqn:Hw; [| done].
  apply written_admitted in Hw as (k & _ & Hsel & Hadm).
  destruct (Hadm eq_refl) as (af & Haf & Hfold).
  by destruct (Hlock af k).
Qed.

Lemma Updates_locked docs : ∀ gp f,
  initialized gp = true → locked f gp → locked FAmendableFields gp →
  get f (Updates gp docs) = get f gp.
Proof.
  induction docs as [|jsonValue docs IH]; intros gp f Hinit Hf Hamend; [done |].
  change (Updates gp (jsonValue :: docs))
    with (Updates (Update gp jsonValue).1 docs).
  assert (Hsame : AmendableFields (Update gp jsonValue).1 = AmendableFields gp).
  { pose proof (Update_locked gp jsonValue FAmendableFields Hinit Hamend) as E.
    simpl in E. congruence. }
  rewrite IH.
  - by apply Update_locked.
  - by apply Update_initialized_stable.
  - unfold locked. rewrite Hsame. exact Hf.
  - unfold locked. rewrite Hsame. exact Hamend.
Qed.

Lemma Updates_initialized docs : ∀ gp,
  initialized gp = true → initialized (Updates gp docs) = true.
Proof.
  induction docs as [|jsonValue docs IH]; intros gp Hinit; [done |].
  apply IH. by apply Update_initialized_stable.
Qed.

(** X13. A call that returns an error has changed nothing, not even
    [initialized]; the error is the decoder's, and the empty document is never
    an error. *)
Theorem Update_error_changes_nothing (gp : GenesisParameters)
    (jsonValue : bytes) (err : error) :
  (Update gp jsonValue).2 = Some err →
  (Update gp jsonValue).1 = gp
  ∧ jsonValue ≠ []
  ∧ (json_Unmarshal_fields jsonValue = inl err
     ∨ json_Unmarshal_params jsonValue = inl err).
Proof.
  destruct (Update_cases json_Unmarshal_fields gp jsonValue)
    as [[_ ->]|[(Hne & err' & -> & Hwhy)|(_ & kvs & ngp & _ & _ & ->)]];
    [done | | done].
  simpl. intros [= ->]. done.
Qed.

(** X14. The order in which [range] yields the keys of the document, which Go
    leaves open, has no influence on what the call does. *)
Theorem Update_order_irrelevant
    (fields fields' : bytes → result (list (string * bytes)))
    (gp : GenesisParameters) (jsonValue : bytes)
    (updFields updFields' : list (string * bytes)) :
  fields jsonValue = inr updFields →
  fields' jsonValue = inr updFields' →
  updFields.*1 ≡ₚ updFields'.*1 →
  Update_with fields gp jsonValue = Update_with fields' gp jsonValue.
Proof.
  intros Hfields Hfields' Hperm.
  destruct (Update_cases fields gp jsonValue)
    as [[-> ->]|[(_ & err & _ & [Hwhy|Hwhy])|(Hne & kvs & ngp & Hk & Hp & ->)]].
  - done.
  - congruence.
  - unfold Genesis.Update. destruct jsonValue; [done |]. simpl.
    by rewrite Hfields, Hfields', Hwhy.
  - rewrite (Update_decoded fields' gp jsonValue updFields' ngp Hne Hfields' Hp).
    f_equal. assert (kvs = updFields) as -> by congruence.
    apply params_ext.
    + done.
    + intros f. rewrite !get_decoded.
      by rewrite (written_Permutation strings_EqualFold strings_ToLower
                    _ _ _ _ f Hperm).
Qed.

(** X15. Giving the first document a second time changes nothing. *)
Theorem Update_replay (gp : GenesisParameters) (jsonValue : bytes) :
  initialized gp = false →
  Update (Update gp jsonValue).1 jsonValue = Update gp jsonValue.
Proof.
  intros Hinit.
  destruct (Update_cases json_Unmarshal_fields gp jsonValue)
    as [[-> ->]|[(_ & err & Hrun & _)|(Hne & kvs & ngp & Hk & Hp & Hrun)]];
    [done | by rewrite Hrun |].
  rewrite Hrun. simpl.
  rewrite (Update_decoded json_Unmarshal_fields _ jsonValue kvs ngp Hne Hk Hp).
  f_equal. apply params_ext; [done |]. intros f.
  rewrite get_decoded.
  destruct (written _ _ kvs.*1 f) eqn:Hw; [| done].
  apply written_admitted in Hw as (k & Hin & Hsel & _).
  by rewrite get_decoded, Hinit, (written_first _ _ _ k).
Qed.

(** X16. A field that the amendable list does not name, in parameters whose
    amendable list does not name itself, keeps its value through any run of
    later calls. *)
Theorem Updates_keep_locked_field (gp : GenesisParameters) (f : field)
    (docs : list bytes) :
  initialized gp = true → locked f gp → locked FAmendableFields gp →
  get f (Updates gp docs) = get f gp.
Proof. intros Hinit Hf Hamend. by apply Updates_locked. Qed.

(** X17. Parameters that are set and name no amendable field are final: no run
    of calls, whatever the documents, changes anything. *)
Theorem Updates_of_unamendable (gp : GenesisParameters) (docs : list bytes) :
  initialized gp = true → AmendableFields gp = [] →
  Updates gp docs = gp.
Proof.
  intros Hinit Hnone.
  assert (Hlock : ∀ f, locked f gp).
  { intros f af k Haf. rewrite Hnone in Haf. by inversion Haf. }
  apply params_ext.
  - by rewrite Updates_initialized.
  - intros f. by apply Updates_locked.
Qed.

End Laws.

(** The documents of [Genesis], and the first of them with its keys yielded
    the other way round. *)
Module Demo.

Definition first_fields : list (string * bytes) :=
  [("Name", [34; 83; 111; 108; 34]); ("bogus", [49]);
   ("RecordMinLinks", [51]); ("AmendableFields", [91; 93])]%string.

Definition fields_reversed (j : bytes) : result (list (string * bytes)) :=
  match demo_fields j with
  | inl err => inl err
  | inr updFields => inr (reverse updFields)
  end.

(** The parameters after the first document: set, with [Name] the only
    amendable field. *)
Definition name_amendable : GenesisParameters := set_initialized decoded_first.

(** Parameters that are set and name no amendable field. *)
Definition unamendable : GenesisParameters := set_initialized decoded_second.

Lemma first_fields_decoded : demo_fields doc_first = inr first_fields.
Proof. reflexivity. Qed.

Lemma first_fields_reversed :
  fields_reversed doc_first = inr (reverse first_fields).
Proof. reflexivity. Qed.

Lemma reversed_keys : first_fields.*1 ≡ₚ (reverse first_fields).*1.
Proof. by rewrite fmap_reverse, reverse_Permutation. Qed.

Lemma name_only f :
  f ≠ FName → locked EqualFold_ascii ToLower_ascii f name_amendable.
Proof.
  intros Hf af k Haf Hfold Hsel.
  apply list_elem_of_singleton in Haf as ->.
  apply String.eqb_eq in Hfold. rewrite <- Hfold in Hsel.
  by injection Hsel as <-.
Qed.

End Demo.

Lemma Update_error_changes_nothing_witness :
  (demo_Update zero [123]).1 = zero
  ∧ ([123] : bytes) ≠ []
  ∧ (demo_fields [123] = inl "unexpected end of JSON input"%string
     ∨ demo_params [123] = inl "unexpected end of JSON input"%string).
Proof.
  exact (Update_error_changes_nothing demo_fields demo_params EqualFold_ascii
           ToLower_ascii zero [123] "unexpected end of JSON input"%string
           eq_refl).
Defined.

Lemma Update_order_irrelevant_witness :
  Genesis.Update demo_fields demo_params EqualFold_ascii ToLower_ascii
    zero doc_first
  = Genesis.Update Demo.fields_reversed demo_params EqualFold_ascii
      ToLower_ascii zero doc_first.
Proof.
  exact (Update_order_irrelevant demo_params EqualFold_ascii ToLower_ascii
           demo_fields Demo.fields_reversed zero doc_first
           Demo.first_fields (reverse Demo.first_fields)
           Demo.first_fields_decoded Demo.first_fields_reversed
           Demo.reversed_keys).
Defined.

Lemma Update_replay_witness :
  demo_Update (demo_Update zero doc_first).1 doc_first
  = demo_Update zero doc_first.
Proof.
  exact (Update_replay demo_fields demo_params EqualFold_ascii ToLower_ascii
           zero doc_first eq_refl).
Defined.

Lemma Updates_keep_locked_field_witness :
  get FRecordMinLinks
    (Updates demo_fields demo_params EqualFold_ascii ToLower_ascii
       Demo.name_amendable [doc_second; doc_first; doc_second])
  = get FRecordMinLinks Demo.name_amendable.
Proof.
  apply (Updates_keep_locked_field demo_fields demo_params EqualFold_ascii
           ToLower_ascii Demo.name_amendable FRecordMinLinks
           [doc_second; doc_first; doc_second]).
  - reflexivity.
  - apply Demo.name_only. discriminate.
  - apply Demo.name_only. discriminate.
Defined.

Lemma Updates_of_unamendable_witness :
  Updates demo_fields demo_params EqualFold_ascii ToLower_ascii
    Demo.unamendable [doc_first; doc_second]
  = Demo.unamendable.
Proof.
  exact (Updates_of_unamendable demo_fields demo_params EqualFold_ascii
           ToLower_ascii Demo.unamendable [doc_first; doc_second]
           eq_refl eq_refl).
Defined.

End GenesisLaws.

(* ===================================================================== *)
(** * genesis.go: from [CreateGenesisRecords] back to the parameters *)
(* ===================================================================== *)

Module GenesisBootstrap.

Import Genesis Records GenesisRecords GenesisLaws.

Section Bootstrap.

Variable World : Type.
Variable json_Marshal : GenesisParameters → result bytes.
Variable NewOwner : Z → World → result OwnerKey * World.
Variable TimeSec : World → Z * World.
Variable Wharrgarblr : Type.
Variable NewWharrgarblr : Z → Z → Wharrgarblr.
Variable RecordDefaultWharrgarblMemory : Z.
Variable NewRecord :
  bytes → list bytes → option bytes → list bytes → list bytes → option bytes →
  Z → option Wharrgarblr → Z → OwnerKey → World → result LFRecord * World.
Variable Hash : LFRecord → bytes.
Variable json_Unmarshal_fields : bytes → result (list (string * bytes)).
Variable json_Unmarshal_params : bytes → result GenesisParameters.
Variable strings_EqualFold : string → string → bool.
Variable strings_ToLower : string → string.

Hypothesis TimeSec_range : ∀ w, 0 ≤ (TimeSec w).1 < 2 ^ 64.

Hypothesis NewRecord_contract :
  ∀ value links certificate ts workProver flags owner w r w',
    NewRecord value links None [] [] certificate ts workProver flags owner w
      = (inr r, w') →
    Value r = value ∧ Links r = links ∧ Timestamp r = ts
    ∧ OwnerType r = KeyType owner ∧ Owner r = Public owner
    ∧ (is_Some (Work r) ↔ is_Some workProver).

Abbreviation CreateGenesisRecords :=
  (CreateGenesisRecords World json_Marshal NewOwner TimeSec Wharrgarblr
     NewWharrgarblr RecordDefaultWharrgarblMemory NewRecord Hash).
Abbreviation Update :=
  (Update json_Unmarshal_fields json_Unmarshal_params strings_EqualFold
     strings_ToLower).
Abbreviation Updates :=
  (Updates json_Unmarshal_fields json_Unmarshal_params strings_EqualFold
     strings_ToLower).

(** What encoding/json makes of the document [gpjson] it has written for
    [gp]: the document is not empty, both decoders accept it, the decoded
    struct has the fields of [gp], and a field is in the document under a
    key that selects it unless it is left out for being empty. *)
Definition decodes (gpjson : bytes) (gp : GenesisParameters) : Prop :=
  gpjson ≠ []
  ∧ ∃ updFields ngp,
      json_Unmarshal_fields gpjson = inr updFields
      ∧ json_Unmarshal_params gpjson = inr ngp
      ∧ (∀ f, get f ngp = get f gp)
      ∧ ∀ f, (∃ k, k ∈ updFields.*1
                 ∧ field_of_key (strings_ToLower k) = Some f)
             ∨ get f gp = get f zero.

Lemma values_empty (l : list LFRecord) :
  (∀ (i : nat) r, l !! i = Some r → Value r = []) →
  Value <$> l = replicate (length l) [].
Proof.
  induction l as [|r l IH]; intros Hall; [done |]. simpl.
  rewrite (Hall O r eq_refl). f_equal. apply IH.
  intros i r' Hi. by apply (Hall (S i)).
Qed.

Lemma CreateGenesisRecords_values genesisOwnerType genesisParameters w w'
    records owner :
  0 ≤ RecordMinLinks genesisParameters < 2 ^ 64 →
  CreateGenesisRecords genesisOwnerType genesisParameters w
    = (inr (records, owner), w') →
  ∃ gpjson n, json_Marshal genesisParameters = inr gpjson
    ∧ Value <$> records = gpjson :: replicate n [].
Proof.
  intros Hmin. unfold GenesisRecords.CreateGenesisRecords.
  destruct (json_Marshal genesisParameters) as [err|gpjson]; [done |].
  destruct (NewOwner genesisOwnerType w) as [[err|genesisOwner] w1]; [done |].
  destruct (TimeSec w1) as [now w2] eqn:Hclock.
  set (wg := if WorkRequired genesisParameters then _ else _).
  destruct (NewRecord gpjson [] None [] [] None now wg 0 genesisOwner w2)
    as [[err|r] w3] eqn:Hfirst; [done |].
  destruct (genesis_loop _ _ _ _ _ 1 now wg genesisOwner [r] [Hash r] w3)
    as [[err|rs] w4] eqn:Hloop; [done |].
  intros [= <- <- <-].
  apply NewRecord_contract in Hfirst as (Hv & Hl & Ht & Hot & Ho & Hw).
  pose proof (TimeSec_range w1) as Hnow. rewrite Hclock in Hnow. simpl in Hnow.
  apply (genesis_loop_spec World Wharrgarblr NewRecord Hash NewRecord_contract
           gpjson now wg genesisOwner) in Hloop as [Hlen Hrec];
    try done; try (simpl; lia).
  - destruct rs as [|r0 rest]; [done |].
    exists gpjson, (length rest). split; [done |]. simpl.
    rewrite (proj1 (Hrec O r0 eq_refl)). f_equal.
    apply values_empty. intros i r' Hi. by apply (Hrec (S i) r' Hi).
  - intros [|i] r' Hi; [| done]. injection Hi as <-.
    rewrite Hv, Hl, Hot, Ho. repeat split; try done; try apply Hw.
    rewrite Ht. simpl. rewrite Z.add_0_r. unfold uint64.
    by rewrite Z.mod_small.
Qed.

Lemma Updates_empty_documents n gp : Updates gp (replicate n []) = gp.
Proof. induction n as [|n IH]; [done | exact IH]. Qed.

(** X18. A node that starts from the zero parameters and gives [Update] the
    values of the genesis records, in their order, ends with the parameters
    the records were created from, marked initialized. *)
Theorem genesis_records_bootstrap (genesisOwnerType : Z)
    (genesisParameters : GenesisParameters) (w w' : World)
    (records : list LFRecord) (owner : OwnerKey) :
  0 ≤ RecordMinLinks genesisParameters < 2 ^ 64 →
  (∀ gpjson, json_Marshal genesisParameters = inr gpjson →
             decodes gpjson genesisParameters) →
  CreateGenesisRecords genesisOwnerType genesisParameters w
    = (inr (records, owner), w') →
  initialized (Updates zero (Value <$> records)) = true
  ∧ ∀ f, get f (Updates zero (Value <$> records)) = get f genesisParameters.
Proof.
  intros Hmin Hjson Hrun.
  destruct (CreateGenesisRecords_values _ _ _ _ _ _ Hmin Hrun)
    as (gpjson & n & Hmarshal & ->).
  destruct (Hjson gpjson Hmarshal)
    as (Hne & kvs & ngp & Hfields & Hparams & Hsame & Hkeys).
  change (Updates zero (gpjson :: replicate n []))
    with (Updates (Update zero gpjson).1 (replicate n [])).
  rewrite Updates_empty_documents.
  rewrite (Update_decoded _ _ _ _ zero gpjson kvs ngp Hne Hfields Hparams).
  split; [done |]. intros f. cbn [fst].
  rewrite get_decoded. cbn [initialized AmendableFields zero].
  destruct (Hkeys f) as [(k & Hk & Hsel)|Hzero].
  - by rewrite (written_first _ _ _ _ _ k).
  - destruct (Genesis.written _ _ _ _ _ f); [done | by symmetry].
Qed.

Lemma genesis_loop_error n : ∀ i now wg owner records links w err w',
  genesis_loop World Wharrgarblr NewRecord Hash n i now wg owner records links w
    = (inl err, w') →
  ∃ links' ts w0,
    NewRecord [] links' None [] [] None ts wg 0 owner w0 = (inl err, w').
Proof.
  induction n as [|n IH]; intros i now wg owner records links w err w';
    simpl; [done |].
  destruct (NewRecord [] links None [] [] None _ wg 0 owner w)
    as [[err1|r] w1] eqn:Hnew.
  - intros [= <- <-]. eauto.
  - apply IH.
Qed.

(** X21. An error of [CreateGenesisRecords] is the error of [json.Marshal],
    before anything else has run, or of [NewOwner], or of one of the
    [NewRecord] calls, none of which is given a masking key or a selector;
    the function has no error of its own. *)
Theorem CreateGenesisRecords_error_origin (genesisOwnerType : Z)
    (genesisParameters : GenesisParameters) (w w' : World) (err : error) :
  CreateGenesisRecords genesisOwnerType genesisParameters w = (inl err, w') →
  (json_Marshal genesisParameters = inl err ∧ w' = w)
  ∨ NewOwner genesisOwnerType w = (inl err, w')
  ∨ ∃ value links ts wg owner w0,
      NewRecord value links None [] [] None ts wg 0 owner w0 = (inl err, w').
Proof.
  unfold GenesisRecords.CreateGenesisRecords.
  destruct (json_Marshal genesisParameters) as [err0|gpjson].
  { intros [= <- <-]. by left. }
  destruct (NewOwner genesisOwnerType w) as [[err0|genesisOwner] w1].
  { intros [= <- <-]. right. by left. }
  destruct (TimeSec w1) as [now w2].
  set (wg := if WorkRequired genesisParameters then _ else _).
  destruct (NewRecord gpjson [] None [] [] None now wg 0 genesisOwner w2)
    as [[err0|r] w3] eqn:Hfirst.
  { intros [= <- <-]. right. right. eauto 8. }
  destruct (genesis_loop _ _ _ _ _ 1 now wg genesisOwner [r] [Hash r] w3)
    as [[err0|rs] w4] eqn:Hloop; [| done].
  intros [= <- <-]. right. right.
  apply genesis_loop_error in Hloop as (links' & ts & w0 & Hnew). eauto 8.
Qed.

End Bootstrap.

(** What encoding/json makes of the document of [Sol]: the fields that are
    not left out for being empty, each under its own name. *)
Module Demo.

Definition Sol_fields (j : bytes) : result (list (string * bytes)) :=
  inr [("Name", [34; 83; 111; 108; 34]); ("CertificateRequired", [48]);
       ("WorkRequired", [49]); ("LinkKey", [91; 93]);
       ("TimestampFloor", [49]); ("RecordMinLinks", [51]);
       ("RecordMaxValueSize", [49]); ("RecordMaxSize", [54]);
       ("RecordMaxForwardTimeDrift", [49])]%string.

Definition Sol_params (j : bytes) : result GenesisParameters :=
  inr GenesisRecords.Demo.Sol.

Lemma Sol_decodes gpjson :
  GenesisRecords.Demo.json_Marshal GenesisRecords.Demo.Sol = inr gpjson →
  decodes Sol_fields Sol_params ToLower_ascii gpjson GenesisRecords.Demo.Sol.
Proof.
  intros [= <-]. split; [done |].
  eexists _, _. split; [done |]. split; [done |]. split; [done |].
  intros f.
  destruct f; first
    [ by right
    | left; exists "Name"%string; split; [simpl; set_solver | reflexivity]
    | left; exists "WorkRequired"%string; split;
        [simpl; set_solver | reflexivity]
    | left; exists "TimestampFloor"%string; split;
        [simpl; set_solver | reflexivity]
    | left; exists "RecordMinLinks"%string; split;
        [simpl; set_solver | reflexivity]
    | left; exists "RecordMaxValueSize"%string; split;
        [simpl; set_solver | reflexivity]
    | left; exists "RecordMaxSize"%string; split;
        [simpl; set_solver | reflexivity]
    | left; exists "RecordMaxForwardTimeDrift"%string; split;
        [simpl; set_solver | reflexivity] ].
Qed.

End Demo.

Lemma genesis_records_bootstrap_witness :
  ∃ records owner clock',
    GenesisRecords.Demo.CreateGenesisRecords 1 GenesisRecords.Demo.Sol
      1551399635 = (inr (records, owner), clock')
    ∧ initialized
        (GenesisLaws.Updates Demo.Sol_fields Demo.Sol_params EqualFold_ascii
           ToLower_ascii zero (Value <$> records)) = true
    ∧ ∀ f, get f (GenesisLaws.Updates Demo.Sol_fields Demo.Sol_params
                    EqualFold_ascii ToLower_ascii zero (Value <$> records))
           = get f GenesisRecords.Demo.Sol.
Proof.
  destruct CreateGenesisRecords_Sol_returns
    as (records & owner & clock' & Hrun).
  exists records, owner, clock'. split; [exact Hrun |].
  exact (genesis_records_bootstrap Z GenesisRecords.Demo.json_Marshal
           GenesisRecords.Demo.NewOwner GenesisRecords.Demo.TimeSec unit
           (λ _ _, tt) 0 GenesisRecords.Demo.NewRecord Records.Demo.Hash
           Demo.Sol_fields Demo.Sol_params EqualFold_ascii ToLower_ascii
           GenesisRecords.Demo.TimeSec_range
           GenesisRecords.Demo.NewRecord_contract
           1 GenesisRecords.Demo.Sol 1551399635 clock' records owner
           ltac:(simpl; lia) Demo.Sol_decodes Hrun).
Defined.

Lemma CreateGenesisRecords_error_origin_witness :
  (@inl error bytes "json: unsupported value"%string
   = inl "json: unsupported value"%string ∧ 1551399635 = 1551399635)
  ∨ GenesisRecords.Demo.NewOwner 1 1551399635
    = (inl "json: unsupported value"%string, 1551399635)
  ∨ ∃ value links ts wg owner w0,
      GenesisRecords.Demo.NewRecord value links None [] [] None ts wg 0 owner w0
      = (inl "json: unsupported value"%string, 1551399635).
Proof.
  exact (CreateGenesisRecords_error_origin Z
           (λ _, inl "json: unsupported value"%string)
           GenesisRecords.Demo.NewOwner GenesisRecords.Demo.TimeSec unit
           (λ _ _, tt) 0 GenesisRecords.Demo.NewRecord Records.Demo.Hash
           1 GenesisRecords.Demo.Sol 1551399635 1551399635
           "json: unsupported value"%string eq_refl).
Defined.

End GenesisBootstrap.

(* ===================================================================== *)
(** * TestDatabase: the links of a generated record and the insertion order *)
(* ===================================================================== *)

Module TestDatabase.

(** [const testDatabaseInstances = 3], [const testDatabaseRecords = 32768] *)
Definition testDatabaseInstances : nat := 3.
Definition testDatabaseRecords : Z := 32768.

Section Generator.

(** [rand.Int31()]: the values the generator returns, by the number of the
    draw. *)
Variable Int31 : nat → Z.

(** [sliceContainsUInt] is declared elsewhere in the package; it tells
    whether the slice holds the value. *)
Variable sliceContainsUInt : list Z → Z → bool.
Hypothesis sliceContainsUInt_spec :
  ∀ l x, sliceContainsUInt l x = true ↔ x ∈ l.

(** [for j := 0; j < (ri * 2); j++ { if sliceContainsUInt(linkTo, lt) { lt =
    (lt + 1) % uint(ri) } else { linkTo = append(linkTo, lt); break } }], with
    [n] turns left. *)
Fixpoint probe (n : nat) (ri : Z) (linkTo : list Z) (lt : Z) : list Z :=
  match n with
  | O => linkTo
  | S n' =>
      if sliceContainsUInt linkTo lt
      then probe n' ri linkTo (uint64 (lt + 1) mod ri)
      else linkTo ++ [lt]
  end.

(** The body of [for i := 0; i < 3 && i < ri; i++], the draws of this record
    counted from [c]. *)
Definition link_step (ri : Z) (c : nat) (linkTo : list Z) (i : nat) : list Z :=
  probe (Z.to_nat (ri * 2)) ri linkTo (uint64 (Int31 (c + i)) mod ri).

(** [linkTo] of record [ri]. *)
Definition choose_links (ri : Z) (c : nat) : list Z :=
  foldl (link_step ri c) [] (seq 0 (Z.to_nat (Z.min 3 ri))).

Lemma mod_shift_inj ri a (j j' : nat) :
  0 < ri → Z.of_nat j < ri → Z.of_nat j' < ri →
  (a + Z.of_nat j) mod ri = (a + Z.of_nat j') mod ri → j = j'.
Proof.
  intros Hri Hj Hj' Heq.
  pose proof (Z.div_mod (a + Z.of_nat j) ri ltac:(lia)) as E.
  pose proof (Z.div_mod (a + Z.of_nat j') ri ltac:(lia)) as E'.
  rewrite Heq in E.
  assert ((a + Z.of_nat j) / ri = (a + Z.of_nat j') / ri) by nia.
  nia.
Qed.

Lemma probe_finds ri lt0 n : ∀ linkTo (m : nat),
  0 < ri < 2 ^ 63 →
  (∀ j : nat, (j < m)%nat → (lt0 + Z.of_nat j) mod ri ∈ linkTo) →
  Z.of_nat (length linkTo) < ri →
  (length linkTo < m + n)%nat →
  ∃ x, probe n ri linkTo ((lt0 + Z.of_nat m) mod ri) = linkTo ++ [x]
       ∧ (x ∉ linkTo) ∧ 0 ≤ x < ri.
Proof.
  induction n as [|n IH]; intros linkTo m Hri Hseen Hroom Hfuel.
  - exfalso.
    set (run := (λ j : nat, (lt0 + Z.of_nat j) mod ri)
                  <$> seq 0 (S (length linkTo))).
    assert (Hnd : NoDup run).
    { apply NoDup_fmap_2_strong; [| apply NoDup_seq].
      intros j j' Hj%elem_of_seq Hj'%elem_of_seq.
      apply mod_shift_inj; lia. }
    assert (Hsub : run ⊆+ linkTo).
    { apply NoDup_submseteq; [done |].
      intros x (j & -> & Hj%elem_of_seq)%list_elem_of_fmap.
      apply Hseen. lia. }
    apply submseteq_length in Hsub. unfold run in Hsub.
    rewrite length_fmap, length_seq in Hsub. lia.
  - simpl.
    pose proof (Z.mod_pos_bound (lt0 + Z.of_nat m) ri ltac:(lia)) as Hlt.
    destruct (sliceContainsUInt linkTo _) eqn:Hin.
    + apply sliceContainsUInt_spec in Hin.
      replace (uint64 ((lt0 + Z.of_nat m) mod ri + 1) mod ri)
        with ((lt0 + Z.of_nat (S m)) mod ri).
      * apply IH; [done | | done | lia].
        intros j Hj. destruct (decide (j = m)) as [->|]; [done |].
        apply Hseen. lia.
      * unfold uint64. rewrite (Z.mod_small (_ + 1)) by lia.
        rewrite Z.add_mod_idemp_l by lia. f_equal. lia.
    + eexists. split; [done |]. split; [| done].
      intros Hx%sliceContainsUInt_spec. congruence.
Qed.

Lemma link_step_adds ri c linkTo i :
  0 < ri < 2 ^ 62 →
  Z.of_nat (length linkTo) < ri →
  ∃ x, link_step ri c linkTo i = linkTo ++ [x] ∧ (x ∉ linkTo) ∧ 0 ≤ x < ri.
Proof.
  intros Hri Hroom. unfold link_step.
  pose proof (Z.mod_pos_bound (uint64 (Int31 (c + i))) ri ltac:(lia)) as Hlt.
  destruct (probe_finds ri (uint64 (Int31 (c + i)) mod ri)
              (Z.to_nat (ri * 2)) linkTo O) as (x & Hx); try lia.
  exists x. revert Hx. simpl. rewrite Z.add_0_r, Z.mod_mod by lia. done.
Qed.

Lemma choose_links_upto ri c (k : nat) :
  0 < ri < 2 ^ 62 → Z.of_nat k ≤ ri →
  let l := foldl (link_step ri c) [] (seq 0 k) in
  NoDup l ∧ length l = k ∧ ∀ x, x ∈ l → 0 ≤ x < ri.
Proof.
  intros Hri. induction k as [|k IH]; intros Hk.
  - simpl. split; [constructor |]. split; [done |]. by inversion 1.
  - rewrite seq_S, foldl_snoc. simpl.
    destruct IH as (Hnd & Hlen & Hrange); [lia |].
    destruct (link_step_adds ri c (foldl (link_step ri c) [] (seq 0 k)) k)
      as (x & -> & Hnew & Hx); [done | lia |].
    split; [| split].
    + apply NoDup_app. split; [done |]. split; [| apply NoDup_singleton].
      intros y Hy ->%list_elem_of_singleton. done.
    + rewrite length_app, Hlen. simpl. lia.
    + intros y [Hy| ->%list_elem_of_singleton]%elem_of_app; [by apply Hrange | done].
Qed.

(** X19. Record [ri] of the test links to [min 3 ri] records, all different
    and all generated before it, whatever the generator draws. *)
Theorem choose_links_distinct_earlier (ri : Z) (c : nat) :
  0 ≤ ri < testDatabaseRecords →
  NoDup (choose_links ri c)
  ∧ Z.of_nat (length (choose_links ri c)) = Z.min 3 ri
  ∧ ∀ lt, lt ∈ choose_links ri c → 0 ≤ lt < ri.
Proof.
  intros Hri. unfold testDatabaseRecords in Hri. unfold choose_links.
  destruct (decide (ri = 0)) as [->|Hpos].
  { simpl. split; [constructor |]. split; [done |]. by inversion 1. }
  destruct (choose_links_upto ri c (Z.to_nat (Z.min 3 ri)))
    as (Hnd & Hlen & Hrange); [lia | lia |].
  split; [done |]. split; [rewrite Hlen; lia | done].
Qed.

(** [records[a], records[b] = records[b], records[a]]; an index out of range
    panics. *)
Definition swap {A} (records : list A) (a b : nat) : option (list A) :=
  x ← records !! a;
  y ← records !! b;
  Some (<[b := x]> (<[a := y]> records)).

(** The body of the shuffle [for ri := 0; ri < testDatabaseRecords; ri++],
    on the array and the count of draws so far. *)
Definition shuffle_step {A} (st : list A * nat) : option (list A * nat) :=
  let a := Z.to_nat (uint64 (Int31 st.2) mod testDatabaseRecords) in
  let b := Z.to_nat (uint64 (Int31 (S st.2)) mod testDatabaseRecords) in
  records ← (if decide (a = b) then Some st.1 else swap st.1 a b);
  Some (records, S (S st.2)).

Fixpoint shuffle {A} (n : nat) (st : list A * nat) : option (list A * nat) :=
  match n with
  | O => Some st
  | S n' => st' ← shuffle_step st; shuffle n' st'
  end.

(** [for dbi := 0; dbi < testDatabaseInstances; dbi++]: the array is
    shuffled again and then handed to [putRecord] from first to last.  The
    result lists what each database is given, as long as no [putRecord]
    fails. *)
Fixpoint insertion_orders {A} (dbs : nat) (st : list A * nat)
    : option (list (list A)) :=
  match dbs with
  | O => Some []
  | S dbs' =>
      st' ← shuffle (Z.to_nat testDatabaseRecords) st;
      rest ← insertion_orders dbs' st';
      Some (st'.1 :: rest)
  end.

Lemma shuffle_step_permutes {A} (records : list A) c :
  length records = Z.to_nat testDatabaseRecords →
  ∃ records', shuffle_step (records, c) = Some (records', S (S c))
    ∧ records' ≡ₚ records.
Proof.
  intros Hlen. unfold shuffle_step. cbn [fst snd].
  set (a := Z.to_nat (uint64 (Int31 c) mod testDatabaseRecords)).
  set (b := Z.to_nat (uint64 (Int31 (S c)) mod testDatabaseRecords)).
  destruct (decide (a = b)); [by exists records |].
  assert (Ha : (a < length records)%nat).
  { rewrite Hlen. apply Z2Nat.inj_lt; [| done |];
      apply Z.mod_pos_bound; done. }
  assert (Hb : (b < length records)%nat).
  { rewrite Hlen. apply Z2Nat.inj_lt; [| done |];
      apply Z.mod_pos_bound; done. }
  destruct (lookup_lt_is_Some_2 _ _ Ha) as [x Hx].
  destruct (lookup_lt_is_Some_2 _ _ Hb) as [y Hy].
  unfold swap. rewrite Hx, Hy. simpl. eexists. split; [done |].
  by apply Permutation_insert_swap.
Qed.

Lemma shuffle_permutes {A} n : ∀ (records : list A) c,
  length records = Z.to_nat testDatabaseRecords →
  ∃ records', shuffle n (records, c) = Some (records', (c + 2 * n)%nat)
    ∧ records' ≡ₚ records.
Proof.
  induction n as [|n IH]; intros records c Hlen.
  - exists records. split; [| done]. simpl. do 2 f_equal. lia.
  - destruct (shuffle_step_permutes records c Hlen) as (r1 & Hstep & Hp1).
    destruct (IH r1 (S (S c))) as (r2 & Hrest & Hp2).
    { by rewrite Hp1. }
    exists r2. split; [| by rewrite Hp2].
    cbn [shuffle]. rewrite Hstep. cbn [mbind option_bind]. rewrite Hrest.
    do 2 f_equal. lia.
Qed.

(** X20. Each of the databases is given every generated record, each as often
    as it was generated: the shuffles change the order and nothing else, and
    no index is ever out of range. *)
Theorem insertion_orders_permute {A} (records : list A) (c : nat) :
  length records = Z.to_nat testDatabaseRecords →
  ∃ orders, insertion_orders testDatabaseInstances (records, c) = Some orders
    ∧ length orders = testDatabaseInstances
    ∧ ∀ order, order ∈ orders → order ≡ₚ records.
Proof.
  generalize testDatabaseInstances. intros dbs. revert records c.
  induction dbs as [|dbs IH]; intros records c Hlen.
  - exists []. split; [done |]. split; [done |]. by inversion 1.
  - destruct (shuffle_permutes (Z.to_nat testDatabaseRecords) records c Hlen)
      as (r1 & Hshuffle & Hp1).
    destruct (IH r1 (c + 2 * Z.to_nat testDatabaseRecords)%nat)
      as (rest & Hrest & Hn & Hall).
    { by rewrite Hp1. }
    exists (r1 :: rest). split; [| split].
    + cbn [insertion_orders]. rewrite Hshuffle.
      cbn [mbind option_bind]. by rewrite Hrest.
    + simpl. by rewrite Hn.
    + intros order [->|Hin]%elem_of_cons; [done |].
      rewrite <- Hp1. by apply Hall.
Qed.

End Generator.

(** A generator to run the loops on, and membership by search. *)
Module Demo.

Definition Int31 (i : nat) : Z :=
  (1103515245 * Z.of_nat i + 12345) mod 2 ^ 31.

Definition sliceContainsUInt (l : list Z) (x : Z) : bool :=
  bool_decide (x ∈ l).

Lemma sliceContainsUInt_spec l x : sliceContainsUInt l x = true ↔ x ∈ l.
Proof. apply bool_decide_eq_true. Qed.

Lemma records_length :
  length (replicate (Z.to_nat testDatabaseRecords) 0)
  = Z.to_nat testDatabaseRecords.
Proof. apply length_replicate. Qed.

End Demo.

Example choose_links_of_record_2 :
  choose_links Demo.Int31 Demo.sliceContainsUInt 2 4 = [1; 0].
Proof. reflexivity. Qed.

Lemma choose_links_distinct_earlier_witness :
  NoDup (choose_links Demo.Int31 Demo.sliceContainsUInt 2 4)
  ∧ Z.of_nat (length (choose_links Demo.Int31 Demo.sliceContainsUInt 2 4))
    = Z.min 3 2
  ∧ ∀ lt, lt ∈ choose_links Demo.Int31 Demo.sliceContainsUInt 2 4 →
          0 ≤ lt < 2.
Proof.
  apply (choose_links_distinct_earlier Demo.Int31 Demo.sliceContainsUInt
           Demo.sliceContainsUInt_spec 2 4).
  unfold testDatabaseRecords. lia.
Defined.

Lemma insertion_orders_permute_witness :
  ∃ orders,
    insertion_orders Demo.Int31 testDatabaseInstances
      (replicate (Z.to_nat testDatabaseRecords) 0, 0%nat) = Some orders
    ∧ length orders = testDatabaseInstances
    ∧ ∀ order, order ∈ orders →
               order ≡ₚ replicate (Z.to_nat testDatabaseRecords) 0.
Proof.
  exact (insertion_orders_permute Demo.Int31
           (replicate (Z.to_nat testDatabaseRecords) 0) 0
           Demo.records_length).
Defined.

End TestDatabase.
